(** * Comment threads of the story reader: tree reconstruction and votes

    A shallow embedding of the comment code of the application:
    - [types.ts]: the records [Comment], [Episode] and [Story];
    - the storage service: [addComment] and [toggleCommentVote], which
      read a story document, rebuild its [episodes] array and write it back;
    - the story view: the recursive component [CommentTree], which turns
      the flat [comments] array of an episode into nested replies.

    Strings are [string], arrays are lists, [createdAt] (a [Date.now()]
    reading in milliseconds) is an integer, the [stories] collection of the
    document store is a finite map from document ids to [Story] records.
    A view count is the integer its [number] holds, and adding 1 to it is
    the sum of binary64 numbers ([plusOne]): exact up to [2 ^ 53], rounded
    beyond. *)

From stdpp Require Import base decidable option list strings gmap sorting.

Local Open Scope string_scope.
Local Open Scope Z_scope.
Local Open Scope list_scope.

(** ** Data model ([types.ts]) *)

Inductive UserRole : Set := READER | AUTHOR | ADMIN.

(** [parentId?: string | null]: the field may be missing, [null] or a string. *)
Inductive ParentRef : Set :=
  | PAbsent
  | PNull
  | PId (i : string).

Inductive Status : Set := published | draft.

Inductive Classification : Set := ongoing | completed.

Inductive VoteType : Set := Like | Dislike.

#[global] Instance UserRole_eq_dec : EqDecision UserRole.
Proof. solve_decision. Defined.

#[global] Instance ParentRef_eq_dec : EqDecision ParentRef.
Proof. solve_decision. Defined.

#[global] Instance Status_eq_dec : EqDecision Status.
Proof. solve_decision. Defined.

#[global] Instance Classification_eq_dec : EqDecision Classification.
Proof. solve_decision. Defined.

#[global] Instance VoteType_eq_dec : EqDecision VoteType.
Proof. solve_decision. Defined.

Module Comment.

Record t : Set := mk {
  id : string;
  episodeId : string;
  userId : string;
  username : string;
  userRole : UserRole;
  content : string;
  createdAt : Z;
  parentId : ParentRef;
  likes : list string;
  dislikes : list string
}.

(** [{ ...comment, likes, dislikes }] *)
Definition withVotes (c : t) (likes' dislikes' : list string) : t :=
  {| id := id c; episodeId := episodeId c; userId := userId c;
     username := username c; userRole := userRole c; content := content c;
     createdAt := createdAt c; parentId := parentId c;
     likes := likes'; dislikes := dislikes' |}.

End Comment.

Abbreviation Comment := Comment.t.

#[global] Instance Comment_eq_dec : EqDecision Comment.
Proof. solve_decision. Defined.

Module Episode.

Record t : Set := mk {
  id : string;
  storyId : string;
  title : string;
  content : string;
  createdAt : Z;
  updatedAt : option Z;
  likes : list string;
  comments : list Comment;
  status : Status;
  views : Z
}.

(** [{ ...ep, comments }] *)
Definition withComments (ep : t) (comments' : list Comment) : t :=
  {| id := id ep; storyId := storyId ep; title := title ep;
     content := content ep; createdAt := createdAt ep;
     updatedAt := updatedAt ep; likes := likes ep; comments := comments';
     status := status ep; views := views ep |}.

End Episode.

Abbreviation Episode := Episode.t.

Module Story.

Record t : Set := mk {
  id : string;
  authorId : string;
  authorName : string;
  title : string;
  description : string;
  coverImage : string;
  createdAt : Z;
  episodes : list Episode;
  status : Status;
  classification : Classification;
  views : Z
}.

(** [updateDoc(storyDocRef, { episodes })] replaces this one field. *)
Definition withEpisodes (s : t) (episodes' : list Episode) : t :=
  {| id := id s; authorId := authorId s; authorName := authorName s;
     title := title s; description := description s;
     coverImage := coverImage s; createdAt := createdAt s;
     episodes := episodes'; status := status s;
     classification := classification s; views := views s |}.

End Story.

Abbreviation Story := Story.t.

(** The [stories] collection: document id to document. *)
Abbreviation Stories := (gmap string Story).

(** ** Votes (storage service, [toggleCommentVote]) *)

(** [arr.includes(x)] *)
Definition includes (arr : list string) (x : string) : bool :=
  bool_decide (x ∈ arr).

(** [arr.filter(id => id !== userId)] *)
Definition without (userId : string) (arr : list string) : list string :=
  filter (λ i, i ≠ userId) arr.

(** The body run for the comment whose id matches: both arrays are
    copied, one of the four branches updates them, and the comment is
    rebuilt around them. *)
Definition toggleVote (comment : Comment) (userId : string)
    (voteType : VoteType) : Comment :=
  let likes := Comment.likes comment in
  let dislikes := Comment.dislikes comment in
  match voteType with
  | Like =>
      if includes likes userId
      then Comment.withVotes comment (without userId likes) dislikes
      else Comment.withVotes comment (likes ++ [userId]) (without userId dislikes)
  | Dislike =>
      if includes dislikes userId
      then Comment.withVotes comment likes (without userId dislikes)
      else Comment.withVotes comment (without userId likes) (dislikes ++ [userId])
  end.

(** [ep.comments.map(comment => comment.id === commentId ? ... : comment)] *)
Definition voteInComments (commentId userId : string) (voteType : VoteType)
    (comments : list Comment) : list Comment :=
  (λ comment,
     if decide (Comment.id comment = commentId)
     then toggleVote comment userId voteType
     else comment) <$> comments.

(** [story.episodes.map(ep => ep.id === episodeId ? { ...ep, comments } : ep)] *)
Definition voteInEpisodes (episodeId commentId userId : string)
    (voteType : VoteType) (episodes : list Episode) : list Episode :=
  (λ ep,
     if decide (Episode.id ep = episodeId)
     then Episode.withComments ep
            (voteInComments commentId userId voteType (Episode.comments ep))
     else ep) <$> episodes.

(** [toggleCommentVote]: the document is read; when it exists its
    [episodes] field is rewritten; when it does not, nothing is written. *)
Definition toggleCommentVote (db : Stories)
    (storyId episodeId commentId userId : string) (voteType : VoteType)
    : Stories :=
  match db !! storyId with
  | Some story =>
      <[storyId :=
          Story.withEpisodes story
            (voteInEpisodes episodeId commentId userId voteType
               (Story.episodes story))]> db
  | None => db
  end.

(** A run of votes on one comment, oldest first. *)
Definition toggleVotes (comment : Comment)
    (calls : list (string * VoteType)) : Comment :=
  foldl (λ c call, toggleVote c call.1 call.2) comment calls.

(** ** Comment creation (storage service, [addComment]) *)

(** [Omit<Comment, 'id' | 'createdAt' | 'likes' | 'dislikes'>] *)
Module CommentData.

Record t : Set := mk {
  episodeId : string;
  userId : string;
  username : string;
  userRole : UserRole;
  content : string;
  parentId : ParentRef
}.

End CommentData.

Abbreviation CommentData := CommentData.t.

(** Modelled from the spec: the two readings [addComment] takes from
    outside the repository, [doc(collection(db, 'stories')).id] (the
    document store's id generator) and [Date.now()] (the clock). The spec
    says of the first that it is "a fresh unique id" and of the second that
    it is the "current time"; a call receives one reading of each. *)
Record Env : Set := mkEnv {
  autoId : string;
  now : Z
}.

(** The comments stored anywhere in the collection. *)
Definition stored (db : Stories) (c : Comment) : Prop :=
  ∃ storyId story ep,
    db !! storyId = Some story ∧ ep ∈ Story.episodes story ∧
    c ∈ Episode.comments ep.

(** Modelled from the spec: what "fresh unique id" asks of a reading of
    the id generator, whose code is the document store's and not the
    repository's. *)
Definition freshIn (db : Stories) (i : string) : Prop :=
  ∀ c, stored db c → Comment.id c ≠ i.

(** [{ ...commentData, id: ..., createdAt: Date.now(), likes: [], dislikes: [] }] *)
Definition newComment (env : Env) (commentData : CommentData) : Comment :=
  {| Comment.id := autoId env;
     Comment.episodeId := CommentData.episodeId commentData;
     Comment.userId := CommentData.userId commentData;
     Comment.username := CommentData.username commentData;
     Comment.userRole := CommentData.userRole commentData;
     Comment.content := CommentData.content commentData;
     Comment.createdAt := now env;
     Comment.parentId := CommentData.parentId commentData;
     Comment.likes := [];
     Comment.dislikes := [] |}.

(** [story.episodes.map(ep => ep.id === episodeId
      ? { ...ep, comments: [...ep.comments, newComment] } : ep)] *)
Definition appendComment (episodeId : string) (c : Comment)
    (episodes : list Episode) : list Episode :=
  (λ ep,
     if decide (Episode.id ep = episodeId)
     then Episode.withComments ep (Episode.comments ep ++ [c])
     else ep) <$> episodes.

Definition addComment (env : Env) (db : Stories) (storyId episodeId : string)
    (commentData : CommentData) : Stories :=
  let c := newComment env commentData in
  match db !! storyId with
  | Some story =>
      <[storyId :=
          Story.withEpisodes story
            (appendComment episodeId c (Story.episodes story))]> db
  | None => db
  end.

(** ** Tree builder (story view, [CommentTree]) *)

(** [(a, b) => a.createdAt - b.createdAt] *)
Definition byCreatedAt (a b : Comment) : Z :=
  Comment.createdAt a - Comment.createdAt b.

(** [Array.prototype.sort] with a comparator is a stable sort: an element
    goes in front of the first one it does not compare greater than, so
    elements that compare equal keep their order. *)
Fixpoint insertSorted {A} (cmp : A → A → Z) (x : A) (l : list A) : list A :=
  match l with
  | [] => [x]
  | y :: l' =>
      if decide (cmp x y ≤ 0) then x :: y :: l' else y :: insertSorted cmp x l'
  end.

Fixpoint sort {A} (cmp : A → A → Z) (l : list A) : list A :=
  match l with
  | [] => []
  | x :: l' => insertSorted cmp x (sort cmp l')
  end.

(** The default of the parameter: [parentId = null] when it is not passed. *)
Definition orNull (parentId : ParentRef) : ParentRef :=
  match parentId with
  | PAbsent => PNull
  | _ => parentId
  end.

(** [comments.filter(c => c.parentId === parentId)
            .sort((a, b) => a.createdAt - b.createdAt)] *)
Definition childComments (comments : list Comment) (parentId : ParentRef)
    : list Comment :=
  sort byCreatedAt (filter (λ c, Comment.parentId c = parentId) comments).

(** What one comment renders to: its card and, nested in it, the tree of
    its replies. *)
#[warnings="-register-all"] Inductive Node : Set :=
  | mkNode (payload : Comment) (replies : list Node).

Definition payload (n : Node) : Comment :=
  match n with mkNode c _ => c end.

Definition replies (n : Node) : list Node :=
  match n with mkNode _ rs => rs end.

(** [CommentTree({ comments, parentId = null })]. The component calls
    itself for every comment it lists, so the model counts the depth of
    calls: [None] when [fuel] calls do not reach the bottom of the
    recursion. A component that returns [null] renders nothing, the empty
    forest. *)
Fixpoint CommentTree (fuel : nat) (comments : list Comment)
    (parentId : ParentRef) : option (list Node) :=
  match fuel with
  | O => None
  | S fuel' =>
      let childComments := childComments comments (orNull parentId) in
      if decide (length childComments = 0%nat) then Some []
      else
        mapM (λ comment,
                mkNode comment <$>
                  CommentTree fuel' comments (PId (Comment.id comment)))
             childComments
  end.

(** The root of the view: [<CommentTree comments={activeEpisode.comments} />],
    with as many calls allowed as any path of distinct comments can need. *)
Definition buildForest (comments : list Comment) : option (list Node) :=
  CommentTree (S (length comments)) comments PAbsent.

(** Every node of a forest, parents before their replies. *)
Fixpoint nodesOf (n : Node) : list Node :=
  match n with
  | mkNode _ rs => n :: (rs ≫= nodesOf)
  end.

Definition allNodes (forest : list Node) : list Node :=
  forest ≫= nodesOf.

(** The sibling groups of a forest: the list under each parent reference. *)
Definition siblingGroups (parentId : ParentRef) (forest : list Node)
    : list (ParentRef * list Comment) :=
  (orNull parentId, payload <$> forest) ::
  ((λ n, (PId (Comment.id (payload n)), payload <$> replies n)) <$> allNodes forest).

(** * Vocabulary of the properties *)

(** ** Votes *)



(** The fields no vote writes. *)
Definition sameButVotes (c c' : Comment) : Prop :=
  Comment.id c' = Comment.id c ∧
  Comment.episodeId c' = Comment.episodeId c ∧
  Comment.userId c' = Comment.userId c ∧
  Comment.username c' = Comment.username c ∧
  Comment.userRole c' = Comment.userRole c ∧
  Comment.content c' = Comment.content c ∧
  Comment.createdAt c' = Comment.createdAt c ∧
  Comment.parentId c' = Comment.parentId c.

Definition sameButComments (ep ep' : Episode) : Prop :=
  Episode.id ep' = Episode.id ep ∧
  Episode.storyId ep' = Episode.storyId ep ∧
  Episode.title ep' = Episode.title ep ∧
  Episode.content ep' = Episode.content ep ∧
  Episode.createdAt ep' = Episode.createdAt ep ∧
  Episode.updatedAt ep' = Episode.updatedAt ep ∧
  Episode.likes ep' = Episode.likes ep ∧
  Episode.status ep' = Episode.status ep ∧
  Episode.views ep' = Episode.views ep.

Definition sameButEpisodes (s s' : Story) : Prop :=
  Story.id s' = Story.id s ∧
  Story.authorId s' = Story.authorId s ∧
  Story.authorName s' = Story.authorName s ∧
  Story.title s' = Story.title s ∧
  Story.description s' = Story.description s ∧
  Story.coverImage s' = Story.coverImage s ∧
  Story.createdAt s' = Story.createdAt s ∧
  Story.status s' = Story.status s ∧
  Story.classification s' = Story.classification s ∧
  Story.views s' = Story.views s.

(** The invariants of the two vote lists of a comment. *)
Definition wellVoted (c : Comment) : Prop :=
  NoDup (Comment.likes c) ∧ NoDup (Comment.dislikes c) ∧
  ∀ userId, userId ∈ Comment.likes c → userId ∉ Comment.dislikes c.


(** ** Order of the siblings *)

(** Oldest first. *)
Definition notAfter (a b : Comment) : Prop :=
  Comment.createdAt a ≤ Comment.createdAt b.

#[global] Instance notAfter_dec a b : Decision (notAfter a b).
Proof. unfold notAfter. apply _. Defined.

(** ** Forests *)

(** The comments of the nodes of a forest, parents before their replies. *)
Definition flatten (forest : list Node) : list Comment :=
  payload <$> allNodes forest.

(** Every [parentId] that is not [null] is the id of a comment of the
    collection. *)
Definition resolves (comments : list Comment) : Prop :=
  ∀ c, c ∈ comments → Comment.parentId c ≠ PNull →
       ∃ c', c' ∈ comments ∧ Comment.parentId c = PId (Comment.id c').

(** [c] is a reply to [c']. *)
Definition replyTo (comments : list Comment) (c c' : Comment) : Prop :=
  c ∈ comments ∧ c' ∈ comments ∧ Comment.parentId c = PId (Comment.id c').

(** [c] is, through some replies, a reply to itself. *)
Definition onCycle (comments : list Comment) (c : Comment) : Prop :=
  tc (replyTo comments) c c.

Definition acyclic (comments : list Comment) : Prop :=
  ∀ c, ¬ onCycle comments c.

Definition distinctIds (comments : list Comment) : Prop :=
  NoDup (Comment.id <$> comments).

(** The collections the comment form builds: [addComment] puts the new
    comment at the end, under an id that no comment has, and
    [handleComment] gives it [parentId] [null] or the id of the comment
    whose reply form was open, a comment of the collection. *)
Inductive posted : list Comment → Prop :=
  | posted_none : posted []
  | posted_more comments c :
      posted comments →
      Comment.id c ∉ Comment.id <$> comments →
      Comment.parentId c = PNull ∨
        (∃ c', c' ∈ comments ∧ Comment.parentId c = PId (Comment.id c')) →
      posted (comments ++ [c]).

(** The depth of a comment under the top-level comments. *)
Inductive level (comments : list Comment) : nat → Comment → Prop :=
  | level_top c :
      c ∈ comments → Comment.parentId c = PNull → level comments 0 c
  | level_reply n c' c :
      level comments n c' → c ∈ comments →
      Comment.parentId c = PId (Comment.id c') →
      level comments (S n) c.

(** The calls above a call: the comments whose replies are being listed,
    innermost first, up to the root call. *)
Inductive chain (comments : list Comment) : ParentRef → list Comment → Prop :=
  | chain_root : chain comments PNull []
  | chain_step c path :
      c ∈ comments → chain comments (Comment.parentId c) path →
      chain comments (PId (Comment.id c)) (c :: path).

(** How often a comment is a node, and how many nodes have a given id. *)
Definition occurrences (c : Comment) (l : list Comment) : nat :=
  count_occ Comment_eq_dec l c.

Definition idRef (c : Comment) : ParentRef := PId (Comment.id c).

Definition nodesWithRef (p : ParentRef) (l : list Comment) : nat :=
  count_occ ParentRef_eq_dec (idRef <$> l) p.

(** For every node, the comments of the nested calls that list it,
    innermost first: the node's own comment, its parent's, and so on. *)
Fixpoint pathsFrom (above : list Comment) (n : Node) : list (list Comment) :=
  match n with
  | mkNode c rs => (c :: above) :: (rs ≫= pathsFrom (c :: above))
  end.

Definition recursionPaths (forest : list Node) : list (list Comment) :=
  forest ≫= pathsFrom [].

(** ** Worked examples *)

Module Sample.

Definition comment (i : string) (p : ParentRef) (t : Z) : Comment :=
  {| Comment.id := i; Comment.episodeId := "e1"; Comment.userId := "u0";
     Comment.username := "reader"; Comment.userRole := READER;
     Comment.content := "text"; Comment.createdAt := t;
     Comment.parentId := p; Comment.likes := []; Comment.dislikes := [] |}.

Definition voted (likes dislikes : list string) : Comment :=
  Comment.withVotes (comment "x" PNull 0) likes dislikes.

Definition a := comment "a" PNull 100.
Definition b := comment "b" (PId "a") 200.
Definition c := comment "c" PNull 50.
Definition d := comment "d" (PId "zzz") 300.

Definition thread : list Comment := [a; b; c; d].

End Sample.

Module SampleStore.

Definition episode1 : Episode :=
  {| Episode.id := "e1"; Episode.storyId := "s1"; Episode.title := "One";
     Episode.content := "text"; Episode.createdAt := 10;
     Episode.updatedAt := None; Episode.likes := [];
     Episode.comments := Sample.thread; Episode.status := published;
     Episode.views := 0 |}.

Definition story1 : Story :=
  {| Story.id := "s1"; Story.authorId := "u9"; Story.authorName := "author";
     Story.title := "Story"; Story.description := "about"; Story.coverImage := "cover.png";
     Story.createdAt := 5; Story.episodes := [episode1];
     Story.status := published; Story.classification := ongoing;
     Story.views := 0 |}.

Definition db1 : Stories := {[ "s1" := story1 ]}.

Definition reply : CommentData :=
  {| CommentData.episodeId := "e1"; CommentData.userId := "u1";
     CommentData.username := "reader"; CommentData.userRole := READER;
     CommentData.content := "hello"; CommentData.parentId := PId "ghost" |}.

Definition env1 : Env := {| autoId := "n1"; now := 400 |}.

End SampleStore.

(** * The rest of the storage service and of the story view *)

(** ** Episodes and stories (storage service) *)

(** [{ ...ep, likes }] *)
Definition withLikes (ep : Episode) (likes' : list string) : Episode :=
  {| Episode.id := Episode.id ep; Episode.storyId := Episode.storyId ep;
     Episode.title := Episode.title ep; Episode.content := Episode.content ep;
     Episode.createdAt := Episode.createdAt ep;
     Episode.updatedAt := Episode.updatedAt ep; Episode.likes := likes';
     Episode.comments := Episode.comments ep; Episode.status := Episode.status ep;
     Episode.views := Episode.views ep |}.

(** [{ ...ep, status }] *)
Definition withStatus (ep : Episode) (status' : Status) : Episode :=
  {| Episode.id := Episode.id ep; Episode.storyId := Episode.storyId ep;
     Episode.title := Episode.title ep; Episode.content := Episode.content ep;
     Episode.createdAt := Episode.createdAt ep;
     Episode.updatedAt := Episode.updatedAt ep; Episode.likes := Episode.likes ep;
     Episode.comments := Episode.comments ep; Episode.status := status';
     Episode.views := Episode.views ep |}.

(** [{ ...ep, views }] *)
Definition withViews (ep : Episode) (views' : Z) : Episode :=
  {| Episode.id := Episode.id ep; Episode.storyId := Episode.storyId ep;
     Episode.title := Episode.title ep; Episode.content := Episode.content ep;
     Episode.createdAt := Episode.createdAt ep;
     Episode.updatedAt := Episode.updatedAt ep; Episode.likes := Episode.likes ep;
     Episode.comments := Episode.comments ep; Episode.status := Episode.status ep;
     Episode.views := views' |}.

(** [updateDoc(storyDocRef, { status: newStatus })] replaces this one field. *)
Definition withStoryStatus (s : Story) (status' : Status) : Story :=
  {| Story.id := Story.id s; Story.authorId := Story.authorId s;
     Story.authorName := Story.authorName s; Story.title := Story.title s;
     Story.description := Story.description s;
     Story.coverImage := Story.coverImage s;
     Story.createdAt := Story.createdAt s; Story.episodes := Story.episodes s;
     Story.status := status'; Story.classification := Story.classification s;
     Story.views := Story.views s |}.

(** [status === 'published' ? 'draft' : 'published'] *)
Definition flipStatus (status : Status) : Status :=
  match status with
  | published => draft
  | draft => published
  end.

(** [ep.likes.includes(userId) ? ep.likes.filter(id => id !== userId)
                                : [...ep.likes, userId]] *)
Definition toggledLikes (likes : list string) (userId : string) : list string :=
  if includes likes userId then without userId likes else likes ++ [userId].

Definition likeInEpisodes (episodeId userId : string)
    (episodes : list Episode) : list Episode :=
  (λ ep,
     if decide (Episode.id ep = episodeId)
     then withLikes ep (toggledLikes (Episode.likes ep) userId)
     else ep) <$> episodes.

(** [toggleLike] *)
Definition toggleLike (db : Stories) (storyId episodeId userId : string)
    : Stories :=
  match db !! storyId with
  | Some story =>
      <[storyId :=
          Story.withEpisodes story
            (likeInEpisodes episodeId userId (Story.episodes story))]> db
  | None => db
  end.

(** [deleteEpisode]: [story.episodes.filter(ep => ep.id !== episodeId)] *)
Definition deleteEpisode (db : Stories) (storyId episodeId : string) : Stories :=
  match db !! storyId with
  | Some story =>
      <[storyId :=
          Story.withEpisodes story
            (filter (λ ep, Episode.id ep ≠ episodeId) (Story.episodes story))]> db
  | None => db
  end.

Definition statusInEpisodes (episodeId : string)
    (episodes : list Episode) : list Episode :=
  (λ ep,
     if decide (Episode.id ep = episodeId)
     then withStatus ep (flipStatus (Episode.status ep))
     else ep) <$> episodes.

(** [toggleEpisodeStatus] *)
Definition toggleEpisodeStatus (db : Stories) (storyId episodeId : string)
    : Stories :=
  match db !! storyId with
  | Some story =>
      <[storyId :=
          Story.withEpisodes story
            (statusInEpisodes episodeId (Story.episodes story))]> db
  | None => db
  end.

(** [x || 0] on a number. *)
Definition orZero (x : Z) : Z := if decide (x = 0) then 0 else x.

(** A [number] is a binary64 float: it holds every integer up to
    [2 ^ 53] in absolute value, and beyond that only the integers of 53
    significant bits. The result of a sum is the number nearest to the
    exact one, on a tie the one whose last significant bit is 0. *)
Definition nearestNumber (x : Z) : Z :=
  let m := Z.abs x in
  if decide (m ≤ 2 ^ 53) then x
  else
    let e := Z.log2 m - 52 in
    let q := m `div` 2 ^ e in
    let r := m `mod` 2 ^ e in
    let half := 2 ^ (e - 1) in
    let q' :=
      if decide (r < half) then q
      else if decide (half < r) then q + 1
      else if Z.even q then q else q + 1 in
    Z.sgn x * (q' * 2 ^ e).

(** [x + 1] on a number that holds an integer. *)
Definition plusOne (x : Z) : Z := nearestNumber (x + 1).

Definition viewInEpisodes (episodeId : string)
    (episodes : list Episode) : list Episode :=
  (λ ep,
     if decide (Episode.id ep = episodeId)
     then withViews ep (plusOne (orZero (Episode.views ep)))
     else ep) <$> episodes.

(** [incrementEpisodeView] *)
Definition incrementEpisodeView (db : Stories) (storyId episodeId : string)
    : Stories :=
  match db !! storyId with
  | Some story =>
      <[storyId :=
          Story.withEpisodes story
            (viewInEpisodes episodeId (Story.episodes story))]> db
  | None => db
  end.

(** [toggleStoryStatus] *)
Definition toggleStoryStatus (db : Stories) (storyId : string) : Stories :=
  match db !! storyId with
  | Some story =>
      <[storyId := withStoryStatus story (flipStatus (Story.status story))]> db
  | None => db
  end.

(** [deleteStory]: [deleteDoc(doc(db, "stories", storyId))] *)
Definition deleteStory (db : Stories) (storyId : string) : Stories :=
  delete storyId db.

(** ** The story view *)

Module User.

Record t : Set := mk {
  id : string;
  username : string;
  email : string;
  role : UserRole;
  avatarUrl : option string;
  isVerified : option bool
}.

End User.

Abbreviation User := User.t.

(** Truthiness of a string: every string but the empty one. *)
Definition truthy (s : string) : bool :=
  match s with
  | EmptyString => false
  | String _ _ => true
  end.

(** Truthiness of a [string | null] value. *)
Definition truthyRef (p : ParentRef) : bool :=
  match p with
  | PId i => truthy i
  | _ => false
  end.

(** [(a, b) => a.createdAt - b.createdAt] on episodes. *)
Definition byEpisodeCreatedAt (a b : Episode) : Z :=
  Episode.createdAt a - Episode.createdAt b.

(** [e.status === 'published' ||
     (user && (user.role === 'ADMIN' || user.id === foundStory.authorId))] *)
Definition maySee (user : option User) (foundStory : Story) (e : Episode) : bool :=
  bool_decide (Episode.status e = published) ||
  match user with
  | Some u =>
      bool_decide (User.role u = ADMIN) ||
      bool_decide (User.id u = Story.authorId foundStory)
  | None => false
  end.

(** [userVisibleEpisodes] of [fetchStoryData]. *)
Definition userVisibleEpisodes (user : option User) (foundStory : Story)
    : list Episode :=
  sort byEpisodeCreatedAt
    (filter (λ e, maySee user foundStory e = true) (Story.episodes foundStory)).

(** [arr.find(e => e.id === episodeId)] *)
Definition findEpisode (episodeId : string) (episodes : list Episode)
    : option Episode :=
  snd <$> list_find (λ e, Episode.id e = episodeId) episodes.

(** [arr.findIndex(ep => ep.id === id)], [-1] when there is none. *)
Definition findIndex (episodeId : string) (episodes : list Episode) : Z :=
  match list_find (λ e, Episode.id e = episodeId) episodes with
  | Some (i, _) => Z.of_nat i
  | None => -1
  end.

(** [arr[i]]: nothing outside the bounds. *)
Definition at_index {A} (arr : list A) (i : Z) : option A :=
  if decide (0 ≤ i) then arr !! Z.to_nat i else None.

(** What [fetchStoryData] leaves in [activeEpisode] and [error] once the
    story is found. *)
Inductive Selection : Set :=
  | Opened (ep : Episode)
  | StoryPage
  | EpisodeNotFound.

Definition selectEpisode (user : option User) (foundStory : Story)
    (episodeId : option string) : Selection :=
  let userVisibleEpisodes := userVisibleEpisodes user foundStory in
  match episodeId with
  | Some i =>
      if truthy i then
        match findEpisode i userVisibleEpisodes with
        | Some foundEp => Opened foundEp
        | None => EpisodeNotFound
        end
      else StoryPage
  | None => StoryPage
  end.

(** [getChapterNav] *)
Definition getChapterNav (story : option Story) (activeEpisode : option Episode)
    (visibleEpisodes : list Episode) : option Episode * option Episode :=
  match story, activeEpisode with
  | Some _, Some activeEpisode =>
      let currentIndex := findIndex (Episode.id activeEpisode) visibleEpisodes in
      let prev :=
        if decide (currentIndex > 0)
        then at_index visibleEpisodes (currentIndex - 1) else None in
      let next :=
        if decide (currentIndex < Z.of_nat (length visibleEpisodes) - 1)
        then at_index visibleEpisodes (currentIndex + 1) else None in
      (prev, next)
  | _, _ => (None, None)
  end.

(** [chapterIndex > -1 ? chapterIndex + 1 : 0] *)
Definition chapterNumber (activeEpisode : Episode)
    (visibleEpisodes : list Episode) : Z :=
  let chapterIndex := findIndex (Episode.id activeEpisode) visibleEpisodes in
  if decide (chapterIndex > -1) then chapterIndex + 1 else 0.

(** [handleLike] *)
Definition handleLike (db : Stories) (user : option User)
    (story : option Story) (activeEpisode : option Episode) : Stories :=
  match user, story, activeEpisode with
  | Some user, Some story, Some activeEpisode =>
      toggleLike db (Story.id story) (Episode.id activeEpisode) (User.id user)
  | _, _, _ => db
  end.


(** [handleComment(e, parentId = null)]. [blank content] stands for
    [!content.trim()]: what counts as white space is the host's matter. *)
Definition handleComment (blank : string → bool) (env : Env) (db : Stories)
    (user : option User) (story : option Story)
    (activeEpisode : option Episode) (replyText commentText : string)
    (parentId : ParentRef) : Stories :=
  let parentId := orNull parentId in
  let content := if truthyRef parentId then replyText else commentText in
  match user, story, activeEpisode with
  | Some user, Some story, Some activeEpisode =>
      if blank content then db
      else
        addComment env db (Story.id story) (Episode.id activeEpisode)
          {| CommentData.episodeId := Episode.id activeEpisode;
             CommentData.userId := User.id user;
             CommentData.username := User.username user;
             CommentData.userRole := User.role user;
             CommentData.content := content;
             CommentData.parentId :=
               if truthyRef parentId then parentId else PNull |}
  | _, _, _ => db
  end.

(** ** Forests under a change of the comments *)

(** The same forest with every comment rewritten. *)
Fixpoint mapNode (f : Comment → Comment) (n : Node) : Node :=
  match n with
  | mkNode c rs => mkNode (f c) (mapNode f <$> rs)
  end.

(** The comments that are connected to a top-level comment by replies. *)
Definition rooted (comments : list Comment) (c : Comment) : Prop :=
  ∃ n, level comments n c.

(** Every stored comment has well-formed vote lists. *)
Definition storeWellVoted (db : Stories) : Prop :=
  ∀ c, stored db c → wellVoted c.

(** ** Announcements (storage service, [settings/announcements]) *)

Module Announcement.

Record t : Set := mk {
  id : string;
  message : string;
  postedAt : Z
}.

End Announcement.

Abbreviation Announcement := Announcement.t.

#[global] Instance Announcement_eq_dec : EqDecision Announcement.
Proof. solve_decision. Defined.

Record AnnouncementSettings : Set := mkSettings {
  rotationInterval : Z
}.

(** The one document [settings/announcements]: each of its two fields
    may be missing. *)
Module AnnouncementsDoc.

Record t : Set := mk {
  list : option (Datatypes.list Announcement);
  settings : option AnnouncementSettings
}.

End AnnouncementsDoc.

Abbreviation AnnouncementsDoc := AnnouncementsDoc.t.

(** [arrayUnion(x)] on a field: [x] goes to the end of the array unless
    the array holds it already; a field that is no array becomes [[x]]. *)
Definition arrayUnion {A} `{EqDecision A} (field : option (list A)) (x : A)
    : list A :=
  match field with
  | Some arr => if decide (x ∈ arr) then arr else arr ++ [x]
  | None => [x]
  end.

(** [getAnnouncements] *)
Definition getAnnouncements (doc : option AnnouncementsDoc)
    : list Announcement :=
  match doc with
  | Some data =>
      match AnnouncementsDoc.list data with
      | Some l => l
      | None => []
      end
  | None => []
  end.

(** [addAnnouncement] *)
Definition addAnnouncement (env : Env) (doc : option AnnouncementsDoc)
    (message : string) : option AnnouncementsDoc :=
  let newAnnouncement :=
    {| Announcement.id := autoId env; Announcement.message := message;
       Announcement.postedAt := now env |} in
  match doc with
  | Some data =>
      Some {| AnnouncementsDoc.list :=
                Some (arrayUnion (AnnouncementsDoc.list data) newAnnouncement);
              AnnouncementsDoc.settings := AnnouncementsDoc.settings data |}
  | None => Some {| AnnouncementsDoc.list := Some [newAnnouncement];
              AnnouncementsDoc.settings := None |}
  end.

(** [deleteAnnouncement] *)
Definition deleteAnnouncement (doc : option AnnouncementsDoc)
    (announcementId : string) : option AnnouncementsDoc :=
  match doc with
  | Some data =>
      let announcements :=
        filter (λ ann, Announcement.id ann ≠ announcementId)
          (default [] (AnnouncementsDoc.list data)) in
      Some {| AnnouncementsDoc.list := Some announcements;
              AnnouncementsDoc.settings := AnnouncementsDoc.settings data |}
  | None => None
  end.

(** [getAnnouncementSettings] *)
Definition getAnnouncementSettings (doc : option AnnouncementsDoc)
    : AnnouncementSettings :=
  match doc with
  | Some data =>
      match AnnouncementsDoc.settings data with
      | Some s => s
      | None => {| rotationInterval := 15 |}
      end
  | None => {| rotationInterval := 15 |}
  end.

(** [saveAnnouncementSettings]: [setDoc(docRef, { settings }, { merge: true })] *)
Definition saveAnnouncementSettings (doc : option AnnouncementsDoc)
    (s : AnnouncementSettings) : option AnnouncementsDoc :=
  match doc with
  | Some data =>
      Some {| AnnouncementsDoc.list := AnnouncementsDoc.list data;
              AnnouncementsDoc.settings := Some s |}
  | None =>
      Some {| AnnouncementsDoc.list := None;
              AnnouncementsDoc.settings := Some s |}
  end.

(** ** Editing an episode (storage service, [updateEpisode]) *)

(** [Partial<Pick<Episode, 'title' | 'content'>>] *)
Record EpisodeUpdates : Set := mkUpdates {
  newTitle : option string;
  newContent : option string
}.

(** [{ ...ep, ...updates, updatedAt: Date.now() }] *)
Definition edited (env : Env) (updates : EpisodeUpdates) (ep : Episode)
    : Episode :=
  {| Episode.id := Episode.id ep; Episode.storyId := Episode.storyId ep;
     Episode.title := default (Episode.title ep) (newTitle updates);
     Episode.content := default (Episode.content ep) (newContent updates);
     Episode.createdAt := Episode.createdAt ep;
     Episode.updatedAt := Some (now env); Episode.likes := Episode.likes ep;
     Episode.comments := Episode.comments ep;
     Episode.status := Episode.status ep; Episode.views := Episode.views ep |}.

Definition editInEpisodes (env : Env) (episodeId : string)
    (updates : EpisodeUpdates) (episodes : list Episode) : list Episode :=
  (λ ep,
     if decide (Episode.id ep = episodeId) then edited env updates ep else ep)
  <$> episodes.

(** [updateEpisode] *)
Definition updateEpisode (env : Env) (db : Stories)
    (storyId episodeId : string) (updates : EpisodeUpdates) : Stories :=
  match db !! storyId with
  | Some story =>
      <[storyId :=
          Story.withEpisodes story
            (editInEpisodes env episodeId updates (Story.episodes story))]> db
  | None => db
  end.

(** ** Latest episodes (storage service, [getLatestEpisodes]) *)

(** [{ ...ep, authorName, coverImage, storyTitle }] *)
Record LatestEpisode : Set := mkLatest {
  episode : Episode;
  authorName : string;
  coverImage : string;
  storyTitle : string
}.

(** [(a, b) => b.createdAt - a.createdAt] *)
Definition byNewest (a b : LatestEpisode) : Z :=
  Episode.createdAt (episode b) - Episode.createdAt (episode a).

(** What [getLatestEpisodes] makes of the stories its query returns. *)
Definition latestEpisodesOf (stories : list Story) : list LatestEpisode :=
  let allEpisodes :=
    stories ≫= λ story,
      (λ ep,
         {| episode := ep; authorName := Story.authorName story;
            coverImage := Story.coverImage story;
            storyTitle := Story.title story |})
      <$> filter (λ ep, Episode.status ep = published) (Story.episodes story) in
  take 10 (sort byNewest allEpisodes).

(** ** Vocabulary for the rest of the code *)

(** Newest first. *)
Definition newerFirst (a b : LatestEpisode) : Prop :=
  Episode.createdAt (episode b) ≤ Episode.createdAt (episode a).

(** The number of nested calls under a node, itself counted, and the
    largest such number in a forest. *)
Fixpoint heightOf (n : Node) : nat :=
  match n with
  | mkNode _ rs => S (max_list (heightOf <$> rs))
  end.

Definition height (forest : list Node) : nat :=
  max_list (heightOf <$> forest).

(** The shape the episode operations of the storage service share: read
    the story, rebuild its [episodes], write them back if the story is
    there. *)
Definition updateEpisodes (db : Stories) (storyId : string)
    (change : list Episode → list Episode) : Stories :=
  match db !! storyId with
  | Some story =>
      <[storyId := Story.withEpisodes story (change (Story.episodes story))]> db
  | None => db
  end.

(** The fields no like writes. *)
Definition sameButLikes (ep ep' : Episode) : Prop :=
  Episode.id ep' = Episode.id ep ∧
  Episode.storyId ep' = Episode.storyId ep ∧
  Episode.title ep' = Episode.title ep ∧
  Episode.content ep' = Episode.content ep ∧
  Episode.createdAt ep' = Episode.createdAt ep ∧
  Episode.updatedAt ep' = Episode.updatedAt ep ∧
  Episode.comments ep' = Episode.comments ep ∧
  Episode.status ep' = Episode.status ep ∧
  Episode.views ep' = Episode.views ep.



(** A call of one of the operations on stories, episodes and comments. *)
Inductive Call : Set :=
  | CallAddComment (env : Env) (storyId episodeId : string)
      (commentData : CommentData)
  | CallToggleCommentVote (storyId episodeId commentId userId : string)
      (voteType : VoteType)
  | CallToggleLike (storyId episodeId userId : string)
  | CallDeleteEpisode (storyId episodeId : string)
  | CallToggleEpisodeStatus (storyId episodeId : string)
  | CallIncrementEpisodeView (storyId episodeId : string)
  | CallToggleStoryStatus (storyId : string)
  | CallDeleteStory (storyId : string).

Definition call (db : Stories) (c : Call) : Stories :=
  match c with
  | CallAddComment env storyId episodeId commentData =>
      addComment env db storyId episodeId commentData
  | CallToggleCommentVote storyId episodeId commentId userId voteType =>
      toggleCommentVote db storyId episodeId commentId userId voteType
  | CallToggleLike storyId episodeId userId =>
      toggleLike db storyId episodeId userId
  | CallDeleteEpisode storyId episodeId => deleteEpisode db storyId episodeId
  | CallToggleEpisodeStatus storyId episodeId =>
      toggleEpisodeStatus db storyId episodeId
  | CallIncrementEpisodeView storyId episodeId =>
      incrementEpisodeView db storyId episodeId
  | CallToggleStoryStatus storyId => toggleStoryStatus db storyId
  | CallDeleteStory storyId => deleteStory db storyId
  end.

(** Calls one after the other, each on the collection the one before left. *)
Definition calls (db : Stories) (cs : list Call) : Stories :=
  foldl call db cs.

Module SampleView.

Definition chapter (i : string) (t : Z) (status : Status) : Episode :=
  {| Episode.id := i; Episode.storyId := "s1"; Episode.title := "Chapter";
     Episode.content := "text"; Episode.createdAt := t;
     Episode.updatedAt := None; Episode.likes := [];
     Episode.comments := []; Episode.status := status;
     Episode.views := 0 |}.

Definition ch1 := chapter "c1" 10 published.
Definition ch2 := chapter "c2" 20 published.
Definition ch3 := chapter "c3" 30 published.

Definition chapters : list Episode := [ch1; ch2; ch3].

Definition reader : User :=
  {| User.id := "u1"; User.username := "reader";
     User.email := "reader@example.org"; User.role := READER;
     User.avatarUrl := None; User.isVerified := None |}.

End SampleView.

(** * Worked examples, run *)

Example thread_forest :
  buildForest Sample.thread =
    Some [mkNode Sample.c []; mkNode Sample.a [mkNode Sample.b []]].
Proof. vm_compute. reflexivity. Qed.

Example vote_u2 :
  toggleVote (Sample.voted ["u1"] []) "u2" Dislike =
    Sample.voted ["u1"] ["u2"].
Proof. vm_compute. reflexivity. Qed.

Example vote_u1 :
  toggleVote (Sample.voted ["u1"] ["u2"]) "u1" Dislike =
    Sample.voted [] ["u2"; "u1"].
Proof. vm_compute. reflexivity. Qed.

(** * Properties of the votes *)

Section VoteLists.

Implicit Types (arr : list string) (userId x : string).

Lemma includes_true arr x : includes arr x = true ↔ x ∈ arr.
Proof. unfold includes. apply bool_decide_eq_true. Qed.

Lemma includes_false arr x : includes arr x = false ↔ x ∉ arr.
Proof. unfold includes. apply bool_decide_eq_false. Qed.

Lemma elem_of_without userId arr x :
  x ∈ without userId arr ↔ x ≠ userId ∧ x ∈ arr.
Proof. unfold without. by rewrite list_elem_of_filter. Qed.

Lemma without_self userId arr : userId ∉ without userId arr.
Proof. rewrite elem_of_without. tauto. Qed.

Lemma without_absent userId arr : userId ∉ arr → without userId arr = arr.
Proof.
  unfold without. induction arr as [|y arr IH]; intros Hnot; [done|].
  apply not_elem_of_cons in Hnot as [Hne Hnot].
  rewrite filter_cons_True by congruence. by rewrite IH.
Qed.

Lemma without_push userId arr :
  userId ∉ arr → without userId (arr ++ [userId]) = arr.
Proof.
  intros Hnot. unfold without. rewrite filter_app.
  rewrite filter_cons_False by tauto.
  rewrite filter_nil, app_nil_r. by apply without_absent.
Qed.

Lemma NoDup_without userId arr : NoDup arr → NoDup (without userId arr).
Proof. unfold without. apply NoDup_filter. Qed.

Lemma NoDup_push userId arr : NoDup arr → userId ∉ arr → NoDup (arr ++ [userId]).
Proof.
  intros Hnd Hnot. apply NoDup_app. split_and!; [done| |apply NoDup_singleton].
  intros y Hy Hy'. apply list_elem_of_singleton in Hy'. by subst.
Qed.


End VoteLists.


Lemma withComments_same ep : Episode.withComments ep (Episode.comments ep) = ep.
Proof. by destruct ep. Qed.

Lemma withEpisodes_same s : Story.withEpisodes s (Story.episodes s) = s.
Proof. by destruct s. Qed.

Lemma toggleVote_sameButVotes c userId voteType :
  sameButVotes c (toggleVote c userId voteType).
Proof.
  unfold toggleVote.
  destruct voteType; case (includes _ _); repeat split.
Qed.

(** One vote keeps the lists free of repetitions and disjoint. *)
Lemma toggleVote_wellVoted c userId voteType :
  wellVoted c → wellVoted (toggleVote c userId voteType).
Proof.
  intros (Hl & Hd & Hdisj). unfold toggleVote.
  destruct voteType.
  - destruct (includes (Comment.likes c) userId) eqn:Hin; split_and!; simpl.
    + by apply NoDup_without.
    + done.
    + intros u Hu. apply elem_of_without in Hu as [_ Hu]. by apply Hdisj.
    + apply includes_false in Hin. by apply NoDup_push.
    + by apply NoDup_without.
    + intros u Hu Hu'. apply elem_of_without in Hu' as [Hne Hu'].
      apply elem_of_app in Hu as [Hu|Hu].
      * by apply (Hdisj u).
      * apply list_elem_of_singleton in Hu. done.
  - destruct (includes (Comment.dislikes c) userId) eqn:Hin; split_and!; simpl.
    + done.
    + by apply NoDup_without.
    + intros u Hu Hu'. apply elem_of_without in Hu' as [_ Hu'].
      by apply (Hdisj u).
    + by apply NoDup_without.
    + apply includes_false in Hin. by apply NoDup_push.
    + intros u Hu Hu'. apply elem_of_without in Hu as [Hne Hu].
      apply elem_of_app in Hu' as [Hu'|Hu'].
      * by apply (Hdisj u).
      * apply list_elem_of_singleton in Hu'. done.
Qed.

(** C3. From a comment whose [likes] and [dislikes] each hold a user id at
    most once and share none, any finite run of [toggleVote] calls, with
    any user ids and vote types, ends in a comment with the same two
    properties. *)
Theorem toggleVotes_wellVoted (c : Comment) (calls : list (string * VoteType)) :
  wellVoted c → wellVoted (toggleVotes c calls).
Proof.
  unfold toggleVotes. revert c.
  induction calls as [|[userId voteType] calls IH]; intros c Hc; simpl; [done|].
  apply IH. by apply toggleVote_wellVoted.
Qed.

Lemma toggleVotes_wellVoted_witness :
  wellVoted (Sample.voted ["u1"] ["u2"]) ∧
  wellVoted (toggleVotes (Sample.voted ["u1"] ["u2"])
               [("u1", Dislike); ("u3", Like); ("u3", Like); ("u2", Like)]).
Proof.
  assert (wellVoted (Sample.voted ["u1"] ["u2"])) as H.
  { split_and!; simpl; [apply NoDup_singleton..|].
    intros u Hu Hu'. apply list_elem_of_singleton in Hu, Hu'. congruence. }
  split; [exact H|]. apply (toggleVotes_wellVoted _ _ H).
Defined.







(** A [Like] vote of a user who is not in [likes] lists the user there
    and in [dislikes] no more. *)
Lemma like_moves_vote (comment : Comment) (userId : string) :
  userId ∉ Comment.likes comment →
  Comment.likes (toggleVote comment userId Like) =
    Comment.likes comment ++ [userId] ∧
  Comment.dislikes (toggleVote comment userId Like) =
    without userId (Comment.dislikes comment).
Proof.
  intros Hl. unfold toggleVote.
  apply includes_false in Hl. by rewrite Hl.
Qed.

(** The invariant of the two lists is what the [Like] branch relies on:
    it tests [likes.includes(userId)] first, so on a record that lists the
    user in both arrays, which the data model excludes and no operation of
    the store writes ([toggleVote_wellVoted]), the vote is an un-like and
    [dislikes] stays as it is. *)
Example like_on_both_lists_unlikes :
  let comment := Sample.voted ["u1"] ["u1"] in
  ¬ wellVoted comment ∧
  toggleVote comment "u1" Like = Sample.voted [] ["u1"].
Proof.
  split.
  - intros (_ & _ & Hdisj). apply (Hdisj "u1"); by apply list_elem_of_singleton.
  - vm_compute. reflexivity.
Qed.

(** C6. For a comment of the data model (each of [likes] and [dislikes]
    holds a user id at most once, and no user id is in both) in which the
    user is in [dislikes], a [Like] vote of that user gives a comment in
    which the user is in [likes] and not in [dislikes]: the user is added
    at the end of [likes] and filtered out of [dislikes], and the comment
    is again one of the data model. *)
Theorem switch_to_like (comment : Comment) (userId : string) :
  wellVoted comment →
  userId ∈ Comment.dislikes comment →
  userId ∈ Comment.likes (toggleVote comment userId Like) ∧
  (userId ∉ Comment.dislikes (toggleVote comment userId Like)) ∧
  Comment.likes (toggleVote comment userId Like) =
    Comment.likes comment ++ [userId] ∧
  Comment.dislikes (toggleVote comment userId Like) =
    without userId (Comment.dislikes comment) ∧
  wellVoted (toggleVote comment userId Like).
Proof.
  intros Hwell Hd.
  assert (userId ∉ Comment.likes comment) as Hl.
  { destruct Hwell as (_ & _ & Hdisj). intros Hin. by apply (Hdisj userId). }
  destruct (like_moves_vote comment userId Hl) as [Hlikes Hdislikes].
  split_and!.
  - rewrite Hlikes. apply elem_of_app. right. by apply list_elem_of_singleton.
  - rewrite Hdislikes. apply without_self.
  - exact Hlikes.
  - exact Hdislikes.
  - by apply toggleVote_wellVoted.
Qed.

Lemma switch_to_like_witness :
  let comment := Sample.voted ["u1"] ["u2"] in
  wellVoted comment ∧
  "u2" ∈ Comment.dislikes comment ∧
  "u2" ∈ Comment.likes (toggleVote comment "u2" Like) ∧
  ("u2" ∉ Comment.dislikes (toggleVote comment "u2" Like)) ∧
  toggleVote comment "u2" Like = Sample.voted ["u1"; "u2"] [].
Proof.
  intros comment.
  assert (wellVoted comment) as Hwell.
  { split_and!; [compute_done..|].
    intros userId Hl Hd. simpl in Hl, Hd.
    apply list_elem_of_singleton in Hl. apply list_elem_of_singleton in Hd.
    congruence. }
  assert ("u2" ∈ Comment.dislikes comment) as Hd.
  { simpl. by apply list_elem_of_singleton. }
  split; [exact Hwell|]. split; [exact Hd|].
  destruct (switch_to_like comment "u2" Hwell Hd) as (Hin & Hout & _).
  split; [exact Hin|]. split; [exact Hout|].
  vm_compute. reflexivity.
Defined.

(** ** The stored collection under a vote *)

Lemma voteInComments_frame commentId userId voteType comments :
  Forall2
    (λ c c',
       sameButVotes c c' ∧
       (Comment.id c ≠ commentId → c' = c) ∧
       (voteType = Like → userId ∈ Comment.likes c →
        Comment.dislikes c' = Comment.dislikes c) ∧
       (voteType = Dislike → userId ∈ Comment.dislikes c →
        Comment.likes c' = Comment.likes c))
    comments (voteInComments commentId userId voteType comments).
Proof.
  unfold voteInComments. apply Forall2_fmap_r, Forall_Forall2_diag.
  apply Forall_forall. intros c _. unfold compose.
  destruct (decide (Comment.id c = commentId)) as [Heq|Hne].
  - split_and!.
    + apply toggleVote_sameButVotes.
    + done.
    + intros -> Hin. apply includes_true in Hin.
      unfold toggleVote. by rewrite Hin.
    + intros -> Hin. apply includes_true in Hin.
      unfold toggleVote. by rewrite Hin.
  - split_and!; [repeat split|done..].
Qed.

Lemma voteInComments_no_match commentId userId voteType comments :
  (∀ c, c ∈ comments → Comment.id c ≠ commentId) →
  voteInComments commentId userId voteType comments = comments.
Proof.
  intros Hno. unfold voteInComments.
  induction comments as [|c comments IH]; [done|]. simpl.
  rewrite decide_False by (apply Hno; left).
  f_equal. apply IH. intros c' Hc'. apply Hno. by right.
Qed.

Lemma voteInEpisodes_no_match episodeId commentId userId voteType episodes :
  (∀ ep c, ep ∈ episodes → Episode.id ep = episodeId →
           c ∈ Episode.comments ep → Comment.id c ≠ commentId) →
  voteInEpisodes episodeId commentId userId voteType episodes = episodes.
Proof.
  intros Hno. unfold voteInEpisodes.
  induction episodes as [|ep episodes IH]; [done|]. simpl.
  f_equal.
  - destruct (decide (Episode.id ep = episodeId)) as [Heq|Hne]; [|done].
    rewrite voteInComments_no_match; [apply withComments_same|].
    intros c Hc. apply (Hno ep c); [left|done..].
  - apply IH. intros ep' c Hep'. apply Hno. by right.
Qed.

(** C7. A call of [toggleCommentVote] leaves every other story document
    as it is and writes nothing when the story does not exist; in the story
    it rewrites, every field but [episodes] is kept, the episodes keep
    their number, order and every field but [comments], an episode with
    another id is kept whole, the comments keep their number, order, [id],
    [episodeId], [userId], [username], [userRole], [content], [createdAt]
    and [parentId], a comment with another id is kept whole, and in the
    un-like branch [dislikes] (in the un-dislike branch [likes]) is kept. *)
Theorem toggleCommentVote_frame (db : Stories)
    (storyId episodeId commentId userId : string) (voteType : VoteType) :
  let db' := toggleCommentVote db storyId episodeId commentId userId voteType in
  (∀ other, other ≠ storyId → db' !! other = db !! other) ∧
  (db !! storyId = None → db' = db) ∧
  (∀ story, db !! storyId = Some story →
     ∃ story',
       db' !! storyId = Some story' ∧
       sameButEpisodes story story' ∧
       Forall2
         (λ ep ep',
            sameButComments ep ep' ∧
            (Episode.id ep ≠ episodeId → ep' = ep) ∧
            Forall2
              (λ c c',
                 sameButVotes c c' ∧
                 (Comment.id c ≠ commentId → c' = c) ∧
                 (voteType = Like → userId ∈ Comment.likes c →
                  Comment.dislikes c' = Comment.dislikes c) ∧
                 (voteType = Dislike → userId ∈ Comment.dislikes c →
                  Comment.likes c' = Comment.likes c))
              (Episode.comments ep) (Episode.comments ep'))
         (Story.episodes story) (Story.episodes story')).
Proof.
  intros db'. subst db'. unfold toggleCommentVote. split_and!.
  - intros other Hne. destruct (db !! storyId); [|done].
    by rewrite lookup_insert_ne.
  - by intros ->.
  - intros story ->. eexists. split; [apply lookup_insert_eq|].
    split; [repeat split|]. simpl.
    unfold voteInEpisodes. apply Forall2_fmap_r, Forall_Forall2_diag.
    apply Forall_forall. intros ep _. unfold compose.
    destruct (decide (Episode.id ep = episodeId)) as [Heq|Hne].
    + split_and!; [repeat split|done|]. simpl. apply voteInComments_frame.
    + split_and!; [repeat split|done|].
      apply Forall_Forall2_diag, Forall_forall. intros c _.
      split_and!; [repeat split|done..].
Qed.

(** C9. When no comment of an episode with the given [episodeId] in the
    story has the given [commentId] (in particular when the story has no
    such episode, or the collection no such story), [toggleCommentVote]
    leaves the whole collection as it was, and so the comments of every
    episode. The call has no other outcome: the function is total and its
    result is the collection. *)
Theorem toggleCommentVote_no_match (db : Stories)
    (storyId episodeId commentId userId : string) (voteType : VoteType) :
  (∀ story ep c,
     db !! storyId = Some story → ep ∈ Story.episodes story →
     Episode.id ep = episodeId → c ∈ Episode.comments ep →
     Comment.id c ≠ commentId) →
  toggleCommentVote db storyId episodeId commentId userId voteType = db.
Proof.
  intros Hno. unfold toggleCommentVote.
  destruct (db !! storyId) as [story|] eqn:Hstory; [|done].
  rewrite voteInEpisodes_no_match by (intros ep c; by apply Hno).
  rewrite withEpisodes_same. by apply insert_id.
Qed.

(** * Properties of the tree builder *)

(** ** The sort *)

Section Sort.

Context {A : Type} (cmp : A → A → Z).

Lemma insertSorted_Permutation x l : insertSorted cmp x l ≡ₚ x :: l.
Proof.
  induction l as [|y l IH]; simpl; [done|].
  destruct (decide (cmp x y ≤ 0)); [done|].
  rewrite IH. apply Permutation_swap.
Qed.

Lemma sort_Permutation l : sort cmp l ≡ₚ l.
Proof.
  induction l as [|x l IH]; simpl; [done|].
  by rewrite insertSorted_Permutation, IH.
Qed.

Lemma elem_of_sort x l : x ∈ sort cmp l ↔ x ∈ l.
Proof. by rewrite sort_Permutation. Qed.

Lemma length_sort l : length (sort cmp l) = length l.
Proof. by rewrite sort_Permutation. Qed.

Lemma NoDup_sort l : NoDup l → NoDup (sort cmp l).
Proof. by rewrite sort_Permutation. Qed.

End Sort.

Section SortByCreatedAt.

Implicit Types (l : list Comment) (x y : Comment) (t : Z).

Lemma byCreatedAt_le x y : byCreatedAt x y ≤ 0 ↔ notAfter x y.
Proof. unfold byCreatedAt, notAfter. lia. Qed.

Lemma insertSorted_StronglySorted x l :
  StronglySorted notAfter l →
  StronglySorted notAfter (insertSorted byCreatedAt x l).
Proof.
  induction 1 as [|y l Hl IH Hy]; simpl.
  - repeat constructor.
  - destruct (decide (byCreatedAt x y ≤ 0)) as [Hle|Hgt].
    + apply byCreatedAt_le in Hle. constructor; [by constructor|].
      constructor; [done|].
      eapply Forall_impl; [exact Hy|]. unfold notAfter in *.
      intros z Hz. simpl in Hz. lia.
    + constructor; [done|].
      rewrite insertSorted_Permutation. constructor; [|done].
      rewrite byCreatedAt_le in Hgt. unfold notAfter in *. lia.
Qed.

Lemma sort_StronglySorted l : StronglySorted notAfter (sort byCreatedAt l).
Proof.
  induction l as [|x l IH]; simpl; [constructor|].
  by apply insertSorted_StronglySorted.
Qed.

(** Stability: the comments of one timestamp keep their order. *)
Lemma insertSorted_stable t x l :
  filter (λ c, Comment.createdAt c = t) (insertSorted byCreatedAt x l) =
  filter (λ c, Comment.createdAt c = t) (x :: l).
Proof.
  induction l as [|y l IH]; simpl; [done|].
  destruct (decide (byCreatedAt x y ≤ 0)) as [Hle|Hgt]; [done|].
  unfold byCreatedAt in Hgt.
  rewrite (filter_cons _ y), IH, !(filter_cons _ x), (filter_cons _ y).
  destruct (decide (Comment.createdAt x = t)),
           (decide (Comment.createdAt y = t)); try done; lia.
Qed.

Lemma sort_stable t l :
  filter (λ c, Comment.createdAt c = t) (sort byCreatedAt l) =
  filter (λ c, Comment.createdAt c = t) l.
Proof.
  induction l as [|x l IH]; simpl; [done|].
  rewrite insertSorted_stable, !filter_cons, IH. done.
Qed.

(** Sorted and stable determine the result: any list that is oldest
    first and keeps the comments of each timestamp in their order is the
    one [sort] computes. *)
Lemma stable_sorted_unique l1 l2 :
  StronglySorted notAfter l1 → StronglySorted notAfter l2 →
  (∀ t, filter (λ c, Comment.createdAt c = t) l1 =
        filter (λ c, Comment.createdAt c = t) l2) →
  l1 = l2.
Proof.
  intros H1. revert l2.
  induction H1 as [|x xs Hxs IH Hx]; intros l2 H2 Hsame.
  - destruct l2 as [|y ys]; [done|].
    specialize (Hsame (Comment.createdAt y)).
    by rewrite filter_nil, filter_cons_True in Hsame.
  - destruct H2 as [|y ys Hys Hy].
    { specialize (Hsame (Comment.createdAt x)).
      by rewrite filter_nil, filter_cons_True in Hsame. }
    assert (x = y) as <-.
    { destruct (decide (Comment.createdAt x = Comment.createdAt y)) as [Heq|Hne].
      - specialize (Hsame (Comment.createdAt x)).
        rewrite !filter_cons_True in Hsame by done. congruence.
      - assert (x ∈ ys) as Hxin.
        { pose proof (Hsame (Comment.createdAt x)) as Hs.
          rewrite filter_cons_True, filter_cons_False in Hs by done.
          assert (x ∈ filter (λ c, Comment.createdAt c = Comment.createdAt x) ys)
            as Hin by (rewrite <- Hs; left).
          by apply list_elem_of_filter in Hin as [_ ?]. }
        assert (y ∈ xs) as Hyin.
        { pose proof (Hsame (Comment.createdAt y)) as Hs.
          rewrite filter_cons_False, filter_cons_True in Hs by done.
          assert (y ∈ filter (λ c, Comment.createdAt c = Comment.createdAt y) xs)
            as Hin by (rewrite Hs; left).
          by apply list_elem_of_filter in Hin as [_ ?]. }
        rewrite Forall_forall in Hx, Hy.
        pose proof (Hx y Hyin). pose proof (Hy x Hxin).
        unfold notAfter in *. lia. }
    f_equal. apply IH; [done|]. intros t. specialize (Hsame t).
    rewrite !(filter_cons _ x) in Hsame.
    destruct (decide (Comment.createdAt x = t)); congruence.
Qed.

Lemma sort_unique l l' :
  StronglySorted notAfter l' →
  (∀ t, filter (λ c, Comment.createdAt c = t) l' =
        filter (λ c, Comment.createdAt c = t) l) →
  l' = sort byCreatedAt l.
Proof.
  intros Hsorted Hstable.
  apply stable_sorted_unique; [done|apply sort_StronglySorted|].
  intros t. by rewrite sort_stable.
Qed.

End SortByCreatedAt.

(** ** One call: the list of children *)

Section ChildComments.

Implicit Types (comments : list Comment) (c : Comment) (parentId : ParentRef).

Lemma childComments_Permutation comments parentId :
  childComments comments parentId ≡ₚ
  filter (λ c, Comment.parentId c = parentId) comments.
Proof. apply sort_Permutation. Qed.

Lemma elem_of_childComments comments parentId c :
  c ∈ childComments comments parentId ↔
  c ∈ comments ∧ Comment.parentId c = parentId.
Proof.
  rewrite childComments_Permutation, list_elem_of_filter. tauto.
Qed.

Lemma childComments_sorted comments parentId :
  StronglySorted notAfter (childComments comments parentId).
Proof. apply sort_StronglySorted. Qed.

Lemma childComments_stable comments parentId t :
  filter (λ c, Comment.createdAt c = t) (childComments comments parentId) =
  filter (λ c, Comment.createdAt c = t)
    (filter (λ c, Comment.parentId c = parentId) comments).
Proof. apply sort_stable. Qed.

Lemma orNull_idemp parentId : orNull (orNull parentId) = orNull parentId.
Proof. by destruct parentId. Qed.

Lemma orNull_PId i : orNull (PId i) = PId i.
Proof. done. Qed.

End ChildComments.

(** ** The recursion *)

Section Recursion.

Implicit Types (comments : list Comment) (c : Comment) (p q : ParentRef)
  (n : Node) (forest : list Node) (fuel : nat).

(** The early return is the empty case of the map over the children. *)
Lemma CommentTree_S fuel comments p :
  CommentTree (S fuel) comments p =
  mapM (λ comment,
          mkNode comment <$>
            CommentTree fuel comments (PId (Comment.id comment)))
       (childComments comments (orNull p)).
Proof.
  simpl. destruct (decide _) as [Hlen|]; [|done].
  apply nil_length_inv in Hlen. by rewrite Hlen.
Qed.

Lemma CommentTree_orNull fuel comments p :
  CommentTree fuel comments (orNull p) = CommentTree fuel comments p.
Proof.
  destruct fuel; [done|]. by rewrite !CommentTree_S, orNull_idemp.
Qed.

Lemma nodesOf_unfold n : nodesOf n = n :: allNodes (replies n).
Proof. by destruct n. Qed.

Lemma allNodes_cons n forest :
  allNodes (n :: forest) = n :: allNodes (replies n) ++ allNodes forest.
Proof. unfold allNodes at 1. simpl. by rewrite nodesOf_unfold. Qed.

Lemma flatten_cons n forest :
  flatten (n :: forest) =
  payload n :: flatten (replies n) ++ flatten forest.
Proof. unfold flatten. by rewrite allNodes_cons, fmap_cons, fmap_app. Qed.

Lemma elem_of_allNodes n forest :
  n ∈ allNodes forest ↔
  ∃ n0, n0 ∈ forest ∧ (n = n0 ∨ n ∈ allNodes (replies n0)).
Proof.
  unfold allNodes at 1. rewrite list_elem_of_bind.
  split; intros (n0 & H1 & H2); exists n0.
  - rewrite nodesOf_unfold, elem_of_cons in H1. done.
  - rewrite nodesOf_unfold, elem_of_cons. done.
Qed.

(** What a forest that the component returns is made of: at each level
    the children of the parent reference, each with the forest of its own
    id. The fuel is gone from the statement. *)
Lemma CommentTree_forest_ind comments (P : ParentRef → list Node → Prop) :
  (∀ p forest,
     payload <$> forest = childComments comments p →
     Forall (λ n, P (PId (Comment.id (payload n))) (replies n)) forest →
     P p forest) →
  ∀ fuel p forest,
    CommentTree fuel comments p = Some forest → P (orNull p) forest.
Proof.
  intros HP. induction fuel as [|fuel IH]; intros p forest Hrun; [done|].
  rewrite CommentTree_S in Hrun. apply mapM_Some in Hrun.
  apply HP.
  - induction Hrun as [|c n cs ns Hc _ IHrun]; [done|].
    apply fmap_Some in Hc as (sub & _ & ->). simpl. by f_equal.
  - induction Hrun as [|c n cs ns Hc _ IHrun]; constructor; [|done].
    apply fmap_Some in Hc as (sub & Hsub & ->). simpl.
    apply (IH _ _ Hsub).
Qed.

(** Every node lists the children of its own id, and holds a comment of
    the collection. *)
Lemma CommentTree_nodes fuel comments p forest :
  CommentTree fuel comments p = Some forest →
  payload <$> forest = childComments comments (orNull p) ∧
  ∀ n, n ∈ allNodes forest →
    payload n ∈ comments ∧
    payload <$> replies n =
      childComments comments (PId (Comment.id (payload n))).
Proof.
  revert fuel p forest.
  refine (CommentTree_forest_ind comments
            (λ p forest,
               payload <$> forest = childComments comments p ∧
               ∀ n, n ∈ allNodes forest →
                 payload n ∈ comments ∧
                 payload <$> replies n =
                   childComments comments (PId (Comment.id (payload n)))) _).
  intros p forest Htop Hsub. split; [done|].
  intros n Hn. apply elem_of_allNodes in Hn as (n0 & Hn0 & Hn).
  pose proof (proj1 (Forall_forall _ _) Hsub n0 Hn0) as [Htop0 Hsub0].
  destruct Hn as [->|Hn]; [|by apply Hsub0].
  split; [|done].
  assert (payload n0 ∈ childComments comments p) as Hin.
  { rewrite <- Htop. by apply list_elem_of_fmap_2. }
  by apply elem_of_childComments in Hin as [? _].
Qed.

Lemma CommentTree_siblingGroups fuel comments p forest q siblings :
  CommentTree fuel comments p = Some forest →
  (q, siblings) ∈ siblingGroups p forest →
  siblings = childComments comments q.
Proof.
  intros Hrun Hin. apply CommentTree_nodes in Hrun as [Htop Hnodes].
  unfold siblingGroups in Hin. apply elem_of_cons in Hin as [Heq|Hin].
  - by inversion Heq; subst.
  - apply list_elem_of_fmap in Hin as (n & Heq & Hn).
    inversion Heq; subst. by apply Hnodes.
Qed.

Lemma CommentTree_flatten fuel comments p forest c :
  CommentTree fuel comments p = Some forest →
  c ∈ flatten forest →
  c ∈ comments ∧
  (Comment.parentId c = orNull p ∨
   ∃ c', c' ∈ flatten forest ∧ Comment.parentId c = PId (Comment.id c')).
Proof.
  revert fuel p forest.
  refine (CommentTree_forest_ind comments
            (λ p forest,
               c ∈ flatten forest →
               c ∈ comments ∧
               (Comment.parentId c = p ∨
                ∃ c', c' ∈ flatten forest ∧
                      Comment.parentId c = PId (Comment.id c'))) _).
  intros p forest Htop Hsub Hc.
  apply list_elem_of_fmap in Hc as (n & -> & Hn).
  apply elem_of_allNodes in Hn as (n0 & Hn0 & Hn).
  pose proof (proj1 (Forall_forall _ _) Hsub n0 Hn0) as Hsub0.
  assert (payload n0 ∈ childComments comments p) as Hin0.
  { rewrite <- Htop. by apply list_elem_of_fmap_2. }
  apply elem_of_childComments in Hin0 as [Hin0 Hp0].
  assert (flatten (replies n0) ⊆ flatten forest) as Hincl.
  { intros x Hx. apply list_elem_of_fmap in Hx as (m & -> & Hm).
    apply list_elem_of_fmap_2, elem_of_allNodes. eauto. }
  destruct Hn as [->|Hn]; [by auto|].
  destruct Hsub0 as [Hc [Hp|(c' & Hc' & Hp)]].
  { by apply list_elem_of_fmap_2. }
  - split; [done|]. right. exists (payload n0). split; [|done].
    apply list_elem_of_fmap_2, elem_of_allNodes. eauto.
  - split; [done|]. right. exists c'. split; [by apply Hincl|done].
Qed.

(** More calls allowed, same forest. *)
Lemma CommentTree_fuel_mono fuel fuel' comments p forest :
  CommentTree fuel comments p = Some forest →
  (fuel ≤ fuel')%nat →
  CommentTree fuel' comments p = Some forest.
Proof.
  revert fuel' p forest.
  induction fuel as [|fuel IH]; intros fuel' p forest Hrun Hle; [done|].
  destruct fuel' as [|fuel']; [lia|].
  rewrite CommentTree_S in Hrun |- *.
  apply mapM_Some in Hrun. apply mapM_Some.
  eapply Forall2_impl; [exact Hrun|]. simpl. intros c n Hc.
  apply fmap_Some in Hc as (sub & Hsub & ->).
  rewrite (IH fuel' _ _ Hsub); [done|lia].
Qed.

Lemma mapM_ext_elem_of {A B} (f g : A → option B) (l : list A) :
  (∀ x, x ∈ l → f x = g x) → mapM f l = mapM g l.
Proof.
  induction l as [|x l IH]; intros Hfg; [done|]. simpl.
  rewrite Hfg by left. rewrite IH; [done|].
  intros y Hy. apply Hfg. by right.
Qed.

(** A comment whose [parentId] is no reference the component is ever
    called with is invisible to it: the calls run as if the comment were
    not in the collection. *)
Lemma CommentTree_skip fuel l1 l2 c p :
  Comment.parentId c ≠ orNull p →
  (∀ c', c' ∈ l1 ++ l2 → Comment.parentId c ≠ PId (Comment.id c')) →
  CommentTree fuel (l1 ++ c :: l2) p = CommentTree fuel (l1 ++ l2) p.
Proof.
  intros Hp Hids. revert p Hp.
  assert (∀ q, Comment.parentId c ≠ q →
            childComments (l1 ++ c :: l2) q = childComments (l1 ++ l2) q)
    as Hchildren.
  { intros q Hq. unfold childComments.
    by rewrite !filter_app, filter_cons_False. }
  induction fuel as [|fuel IH]; intros p Hp; [done|].
  rewrite !CommentTree_S, Hchildren by done.
  apply mapM_ext_elem_of. intros c' Hc'.
  apply elem_of_childComments in Hc' as [Hc' _].
  rewrite IH; [done|]. simpl. by apply Hids.
Qed.

End Recursion.

(** ** Parent references of a collection *)

Section ParentReferences.

Context (comments : list Comment).
Implicit Types (c : Comment) (p : ParentRef) (path : list Comment).

Lemma level_elem_of n c : level comments n c → c ∈ comments.
Proof. by destruct 1. Qed.

Lemma distinctIds_inj c1 c2 :
  distinctIds comments → c1 ∈ comments → c2 ∈ comments →
  Comment.id c1 = Comment.id c2 → c1 = c2.
Proof.
  unfold distinctIds. induction comments as [|x l IH]; simpl.
  - intros _ H. by apply elem_of_nil in H.
  - intros Hnd H1 H2 Heq. apply NoDup_cons in Hnd as [Hx Hnd].
    apply elem_of_cons in H1 as [->|H1], H2 as [->|H2].
    + done.
    + destruct Hx. rewrite Heq. by apply list_elem_of_fmap_2.
    + destruct Hx. rewrite <- Heq. by apply list_elem_of_fmap_2.
    + by apply IH.
Qed.

Lemma distinctIds_NoDup : distinctIds comments → NoDup comments.
Proof. apply NoDup_fmap_1. Qed.

(** *** No call is nested in a call for the same comment *)

Lemma chain_Forall p path : chain comments p path → Forall (.∈ comments) path.
Proof. induction 1; by constructor. Qed.

Lemma chain_unique p path1 path2 :
  distinctIds comments →
  chain comments p path1 → chain comments p path2 → path1 = path2.
Proof.
  intros Hids H1. revert path2.
  induction H1 as [|c path Hc H1 IH]; intros path2 H2.
  - by inversion H2.
  - inversion H2 as [|c2 path' Hc2 H2' Heq]; subst.
    assert (c2 = c) as -> by (by apply distinctIds_inj).
    f_equal. by apply IH.
Qed.

Lemma chain_suffix p path c :
  chain comments p path → c ∈ path →
  ∃ l1 l2, path = l1 ++ c :: l2 ∧
           chain comments (PId (Comment.id c)) (c :: l2).
Proof.
  induction 1 as [|c0 path Hc0 H IH]; intros Hin.
  - by apply elem_of_nil in Hin.
  - apply elem_of_cons in Hin as [->|Hin].
    + exists [], path. split; [done|]. by constructor.
    + destruct (IH Hin) as (l1 & l2 & -> & Hsuf).
      by exists (c0 :: l1), l2.
Qed.

Lemma chain_NoDup p path :
  distinctIds comments → chain comments p path → NoDup path.
Proof.
  intros Hids. induction 1 as [|c path Hc H IH]; [constructor|].
  apply NoDup_cons. split; [|done]. intros Hin.
  destruct (chain_suffix _ _ _ H Hin) as (l1 & l2 & Hpath & Hsuf).
  assert (c :: l2 = c :: path) as Heq.
  { eapply chain_unique; [done..|]. by constructor. }
  apply (f_equal length) in Heq. rewrite Hpath in Heq. simpl in Heq.
  rewrite length_app in Heq. simpl in Heq. lia.
Qed.

Lemma chain_length p path :
  distinctIds comments → chain comments p path →
  (length path ≤ length comments)%nat.
Proof.
  intros Hids H. apply submseteq_length, NoDup_submseteq.
  - by eapply chain_NoDup.
  - apply Forall_forall. by eapply chain_Forall.
Qed.

(** With distinct ids, a call under a chain of calls returns when it is
    allowed the calls that the collection has comments left for. *)
Lemma CommentTree_returns fuel p path :
  distinctIds comments →
  chain comments (orNull p) path →
  (length comments < fuel + length path)%nat →
  is_Some (CommentTree fuel comments p).
Proof.
  intros Hids. revert p path.
  induction fuel as [|fuel IH]; intros p path Hchain Hlen.
  - pose proof (chain_length _ _ Hids Hchain). simpl in Hlen. lia.
  - rewrite CommentTree_S. apply mapM_is_Some, Forall_forall.
    intros c Hc. apply elem_of_childComments in Hc as [Hc Hp].
    unfold compose. apply fmap_is_Some.
    apply (IH _ (c :: path)).
    + simpl. constructor; [done|]. by rewrite Hp.
    + simpl. lia.
Qed.

(** *** Depth and cycles *)

Lemma level_replyTo n c c' :
  distinctIds comments → level comments n c → replyTo comments c c' →
  ∃ m, n = S m ∧ level comments m c'.
Proof.
  intros Hids Hlevel (Hc & Hc' & Hp).
  destruct Hlevel as [c Hin Htop|m c1 c Hlevel1 Hin Hp1]; [congruence|].
  exists m. split; [done|].
  assert (c1 = c') as <-; [|done].
  apply distinctIds_inj; [done|by eapply level_elem_of|done|congruence].
Qed.

Lemma level_tc n c c' :
  distinctIds comments → level comments n c → tc (replyTo comments) c c' →
  ∃ m, (m < n)%nat ∧ level comments m c'.
Proof.
  intros Hids Hlevel Htc. revert n Hlevel.
  induction Htc as [c c' Hr|c c1 c' Hr _ IH]; intros n Hlevel.
  - destruct (level_replyTo _ _ _ Hids Hlevel Hr) as (m & -> & Hm).
    exists m. split; [lia|done].
  - destruct (level_replyTo _ _ _ Hids Hlevel Hr) as (m & -> & Hm).
    destruct (IH _ Hm) as (k & Hk & Hlevelk).
    exists k. split; [lia|done].
Qed.

Lemma level_not_onCycle n c :
  distinctIds comments → level comments n c → ¬ onCycle comments c.
Proof.
  intros Hids. revert c.
  induction (lt_wf n) as [n _ IH]; intros c Hlevel Hcycle.
  destruct (level_tc _ _ _ Hids Hlevel Hcycle) as (m & Hm & Hlevelm).
  by apply (IH m Hm c).
Qed.

Lemma tc_replyTo_elem_of c c' : tc (replyTo comments) c c' → c' ∈ comments.
Proof. induction 1 as [c c' (_ & Hc' & _)|]; done. Qed.

(** In a collection whose references resolve and form no cycle, every
    comment has a depth. *)
Lemma resolves_acyclic_level c :
  resolves comments → acyclic comments → c ∈ comments →
  ∃ n, level comments n c.
Proof.
  intros Hres Hacyc Hc.
  assert (sn (replyTo comments) c) as Hsn.
  { apply tc_finite_sn; [exact Hacyc|].
    exists comments. intros c'. apply tc_replyTo_elem_of. }
  induction Hsn as [c _ IH].
  destruct (Comment.parentId c) as [| |i] eqn:Hp.
  - destruct (Hres c Hc) as (c' & _ & Habs); congruence.
  - exists 0%nat. by constructor.
  - destruct (Hres c Hc) as (c' & Hc' & Heq); [congruence|].
    destruct (IH c') as [n Hn]; [|done|].
    + unfold flip, replyTo. split_and!; [done..|congruence].
    + exists (S n). econstructor; [done..|congruence].
Qed.

End ParentReferences.

(** ** Counting the nodes *)

Section Counting.

Context (comments : list Comment).
Implicit Types (c : Comment) (p : ParentRef) (forest : list Node).

Lemma occurrences_cons c x l :
  occurrences c (x :: l) =
  ((if decide (x = c) then 1 else 0) + occurrences c l)%nat.
Proof.
  unfold occurrences. destruct (decide (x = c)).
  - by rewrite count_occ_cons_eq.
  - by rewrite count_occ_cons_neq.
Qed.

Lemma occurrences_app c l1 l2 :
  occurrences c (l1 ++ l2) = (occurrences c l1 + occurrences c l2)%nat.
Proof. apply count_occ_app. Qed.

Lemma nodesWithRef_cons p x l :
  nodesWithRef p (x :: l) =
  ((if decide (idRef x = p) then 1 else 0) + nodesWithRef p l)%nat.
Proof.
  unfold nodesWithRef. rewrite fmap_cons. destruct (decide (idRef x = p)).
  - by rewrite count_occ_cons_eq.
  - by rewrite count_occ_cons_neq.
Qed.

Lemma nodesWithRef_app p l1 l2 :
  nodesWithRef p (l1 ++ l2) = (nodesWithRef p l1 + nodesWithRef p l2)%nat.
Proof. unfold nodesWithRef. rewrite fmap_app. apply count_occ_app. Qed.

Lemma occurrences_filter (P : Comment → Prop) `{∀ x, Decision (P x)} c l :
  occurrences c (filter P l) = if decide (P c) then occurrences c l else 0%nat.
Proof.
  induction l as [|x l IH].
  - by destruct (decide (P c)).
  - rewrite filter_cons. destruct (decide (P x)) as [Hx|Hx].
    + rewrite !occurrences_cons, IH.
      destruct (decide (x = c)) as [->|]; by destruct (decide (P c)).
    + rewrite occurrences_cons, IH.
      destruct (decide (x = c)) as [->|]; by destruct (decide (P c)).
Qed.

Lemma occurrences_NoDup c l : NoDup l → c ∈ l → occurrences c l = 1%nat.
Proof.
  intros Hnd Hc. apply NoDup_count_occ'; [|by apply list_elem_of_In].
  by apply NoDup_ListNoDup.
Qed.

Lemma occurrences_absent c l : c ∉ l → occurrences c l = 0%nat.
Proof.
  intros Hc. apply count_occ_not_In. by rewrite <- list_elem_of_In.
Qed.

Lemma occurrences_childComments c p :
  distinctIds comments → c ∈ comments →
  occurrences c (childComments comments p) =
  if decide (Comment.parentId c = p) then 1%nat else 0%nat.
Proof.
  intros Hids Hc.
  transitivity
    (occurrences c (filter (λ c, Comment.parentId c = p) comments)).
  - apply (Permutation_count_occ Comment_eq_dec).
    apply childComments_Permutation.
  - rewrite occurrences_filter. destruct (decide _); [|done].
    apply occurrences_NoDup; [by apply distinctIds_NoDup|done].
Qed.

Lemma nodesWithRef_idRef c l :
  distinctIds comments → c ∈ comments → (∀ x, x ∈ l → x ∈ comments) →
  nodesWithRef (idRef c) l = occurrences c l.
Proof.
  intros Hids Hc.
  induction l as [|x l IH]; intros Hl; [done|].
  rewrite nodesWithRef_cons, occurrences_cons.
  rewrite IH by (intros y Hy; apply Hl; by right). f_equal.
  destruct (decide (idRef x = idRef c)) as [Heq|Hne],
           (decide (x = c)) as [Heq'|Hne']; try done.
  - destruct Hne'. injection Heq as Heq.
    apply (distinctIds_inj comments); [done|apply Hl; left|done..].
  - by subst.
Qed.

(** A comment is a node once for its place among the children of the
    call, and once for each node that has its [parentId] as id. *)
Lemma occurrences_flatten fuel p forest c :
  distinctIds comments → c ∈ comments →
  CommentTree fuel comments p = Some forest →
  occurrences c (flatten forest) =
  ((if decide (Comment.parentId c = orNull p) then 1 else 0) +
   nodesWithRef (Comment.parentId c) (flatten forest))%nat.
Proof.
  intros Hids Hc. revert fuel p forest.
  refine (CommentTree_forest_ind comments
            (λ p forest,
               occurrences c (flatten forest) =
               ((if decide (Comment.parentId c = p) then 1 else 0) +
                nodesWithRef (Comment.parentId c) (flatten forest))%nat) _).
  intros p forest Htop Hsub.
  rewrite <- (occurrences_childComments c p Hids Hc), <- Htop.
  clear Htop. induction Hsub as [|n forest Hn _ IH]; [done|].
  rewrite flatten_cons, fmap_cons.
  rewrite !occurrences_cons, nodesWithRef_cons.
  rewrite occurrences_app, nodesWithRef_app, IH, Hn.
  destruct (decide (Comment.parentId c = PId (Comment.id (payload n)))),
           (decide (idRef (payload n) = Comment.parentId c));
    unfold idRef in *; try congruence; lia.
Qed.

Lemma level_occurrences fuel forest n c :
  distinctIds comments →
  CommentTree fuel comments PAbsent = Some forest →
  level comments n c →
  occurrences c (flatten forest) = 1%nat.
Proof.
  intros Hids Hrun. induction 1 as [c Hc Hp|n c' c Hlevel IH Hc Hp].
  - rewrite (occurrences_flatten _ _ _ _ Hids Hc Hrun), Hp. simpl.
    assert (nodesWithRef PNull (flatten forest) = 0%nat) as ->; [|done].
    apply count_occ_not_In. intros Hin.
    apply list_elem_of_In, list_elem_of_fmap in Hin as (x & Hx & _).
    discriminate.
  - rewrite (occurrences_flatten _ _ _ _ Hids Hc Hrun), Hp. simpl.
    fold (idRef c'). rewrite nodesWithRef_idRef; [done..| |].
    + by eapply level_elem_of.
    + intros x Hx. by apply (CommentTree_flatten _ _ _ _ _ Hrun) in Hx as [? _].
Qed.

(** When every comment has a depth, the nodes are the comments, each
    once. *)
Lemma flatten_Permutation fuel forest :
  distinctIds comments →
  (∀ c, c ∈ comments → ∃ n, level comments n c) →
  CommentTree fuel comments PAbsent = Some forest →
  flatten forest ≡ₚ comments.
Proof.
  intros Hids Hlevels Hrun.
  apply (Permutation_count_occ Comment_eq_dec). intros c.
  change (occurrences c (flatten forest) = occurrences c comments).
  destruct (decide (c ∈ comments)) as [Hc|Hc].
  - destruct (Hlevels c Hc) as [n Hn].
    rewrite (level_occurrences _ _ _ _ Hids Hrun Hn). symmetry.
    apply occurrences_NoDup; [by apply distinctIds_NoDup|done].
  - rewrite (occurrences_absent c comments) by done.
    apply occurrences_absent. intros Hin.
    by apply (CommentTree_flatten _ _ _ _ _ Hrun) in Hin as [? _].
Qed.

(** Every node of the forest of the root call has a depth. *)
Lemma CommentTree_level fuel p forest :
  CommentTree fuel comments p = Some forest →
  (orNull p = PNull ∨
   ∃ n c', orNull p = idRef c' ∧ level comments n c') →
  ∀ c, c ∈ flatten forest → ∃ n, level comments n c.
Proof.
  revert fuel p forest.
  refine (CommentTree_forest_ind comments
            (λ p forest,
               (p = PNull ∨ ∃ n c', p = idRef c' ∧ level comments n c') →
               ∀ c, c ∈ flatten forest → ∃ n, level comments n c) _).
  intros p forest Htop Hsub Hp c Hc.
  apply list_elem_of_fmap in Hc as (n & -> & Hn).
  apply elem_of_allNodes in Hn as (n0 & Hn0 & Hn).
  pose proof (proj1 (Forall_forall _ _) Hsub n0 Hn0) as Hsub0.
  assert (payload n0 ∈ childComments comments p) as Hin0.
  { rewrite <- Htop. by apply list_elem_of_fmap_2. }
  apply elem_of_childComments in Hin0 as [Hin0 Hp0].
  assert (∃ k, level comments k (payload n0)) as [k Hk].
  { destruct Hp as [->|(k & c' & -> & Hk)].
    - exists 0%nat. by constructor.
    - exists (S k). by econstructor. }
  destruct Hn as [->|Hn]; [by exists k|].
  apply Hsub0; [|by apply list_elem_of_fmap_2].
  right. by exists k, (payload n0).
Qed.

End Counting.

(** ** The calls that lead to a node *)

Section Paths.

Context (comments : list Comment).

Lemma pathsFrom_unfold above n :
  pathsFrom above n =
  (payload n :: above) :: (replies n ≫= pathsFrom (payload n :: above)).
Proof. by destruct n. Qed.

Lemma CommentTree_paths fuel p forest :
  CommentTree fuel comments p = Some forest →
  ∀ above path,
    chain comments (orNull p) above →
    path ∈ forest ≫= pathsFrom above →
    ∃ q, chain comments q path.
Proof.
  revert fuel p forest.
  refine (CommentTree_forest_ind comments
            (λ p forest,
               ∀ above path,
                 chain comments p above →
                 path ∈ forest ≫= pathsFrom above →
                 ∃ q, chain comments q path) _).
  intros p forest Htop Hsub above path Habove Hpath.
  apply list_elem_of_bind in Hpath as (n0 & Hpath & Hn0).
  pose proof (proj1 (Forall_forall _ _) Hsub n0 Hn0) as Hsub0.
  assert (payload n0 ∈ childComments comments p) as Hin0.
  { rewrite <- Htop. by apply list_elem_of_fmap_2. }
  apply elem_of_childComments in Hin0 as [Hin0 Hp0].
  assert (chain comments (PId (Comment.id (payload n0))) (payload n0 :: above))
    as Hchain0.
  { constructor; [done|]. by rewrite Hp0. }
  rewrite pathsFrom_unfold in Hpath.
  apply elem_of_cons in Hpath as [->|Hpath]; [by eexists|].
  by apply (Hsub0 (payload n0 :: above)).
Qed.

Lemma chain_distinct_ids q path :
  distinctIds comments → chain comments q path →
  NoDup (Comment.id <$> path).
Proof.
  intros Hids Hchain. apply NoDup_fmap_2_strong.
  - pose proof (chain_Forall _ _ _ Hchain) as Hall.
    rewrite Forall_forall in Hall.
    intros x y Hx Hy. apply (distinctIds_inj comments); auto.
  - by eapply chain_NoDup.
Qed.

End Paths.

(** * The claims on the tree builder *)

(** C10. For a collection whose comments have pairwise distinct ids the
    recursion of [CommentTree] ends: the root call returns a forest when
    it is allowed one call more than there are comments, and any larger
    allowance gives the same forest. This holds with cycles of [parentId]
    references in the collection: no comment on a cycle is a node of the
    forest, and no id comes twice among the nested calls that lead to a
    node. *)
Theorem CommentTree_terminates (comments : list Comment) :
  distinctIds comments →
  ∃ forest,
    buildForest comments = Some forest ∧
    (∀ fuel, (length comments < fuel)%nat →
             CommentTree fuel comments PAbsent = Some forest) ∧
    (∀ c, c ∈ flatten forest → ¬ onCycle comments c) ∧
    (∀ path, path ∈ recursionPaths forest → NoDup (Comment.id <$> path)).
Proof.
  intros Hids. unfold buildForest.
  destruct (CommentTree_returns comments (S (length comments)) PAbsent [] Hids)
    as [forest Hrun]; [constructor|simpl; lia|].
  exists forest. split_and!.
  - done.
  - intros fuel Hfuel. eapply CommentTree_fuel_mono; [done|lia].
  - intros c Hc.
    destruct (CommentTree_level comments _ _ _ Hrun (or_introl eq_refl) c Hc)
      as [n Hn].
    by eapply level_not_onCycle.
  - intros path Hpath.
    destruct (CommentTree_paths comments _ _ _ Hrun [] path) as [q Hq];
      [constructor|done|].
    by eapply chain_distinct_ids.
Qed.

Lemma CommentTree_terminates_witness :
  let comments :=
    [Sample.a; Sample.b;
     Sample.comment "x" (PId "y") 10; Sample.comment "y" (PId "x") 20] in
  distinctIds comments ∧
  ∃ forest,
    buildForest comments = Some forest ∧
    (∀ fuel, (length comments < fuel)%nat →
             CommentTree fuel comments PAbsent = Some forest) ∧
    (∀ c, c ∈ flatten forest → ¬ onCycle comments c) ∧
    (∀ path, path ∈ recursionPaths forest → NoDup (Comment.id <$> path)).
Proof.
  intros comments.
  assert (distinctIds comments) as Hids by (unfold distinctIds; compute_done).
  split; [exact Hids|]. exact (CommentTree_terminates comments Hids).
Defined.

(** Two comments with one id, the second a reply to that id: the call for
    the id lists the second comment and calls itself again, for ever. *)
Example shared_id_never_returns :
  let comments := [Sample.comment "a" PNull 1; Sample.comment "a" (PId "a") 2] in
  ¬ distinctIds comments ∧
  ∀ fuel, CommentTree fuel comments PAbsent = None.
Proof.
  intros comments. split.
  - unfold distinctIds. compute_done.
  - assert (∀ fuel, CommentTree fuel comments (PId "a") = None) as Hloop.
    { induction fuel as [|fuel IH]; [done|].
      rewrite CommentTree_S. change (childComments comments (orNull (PId "a")))
        with [Sample.comment "a" (PId "a") 2].
      simpl. change (Comment.id _) with "a". by rewrite IH. }
    intros [|fuel]; [done|].
    rewrite CommentTree_S. change (childComments comments (orNull PAbsent))
      with [Sample.comment "a" PNull 1].
    simpl. change (Comment.id _) with "a". by rewrite Hloop.
Qed.

(** C4. In a forest that [CommentTree] returns, every group of siblings,
    the top level and the replies of every node, is the list of the
    comments of the collection with that [parentId], oldest first: each
    comment is no newer than the ones listed after it, and the comments
    with one [createdAt] are in the order they have in the collection. *)
Theorem siblings_oldest_first (fuel : nat) (comments : list Comment)
    (parentId : ParentRef) (forest : list Node)
    (q : ParentRef) (siblings : list Comment) :
  CommentTree fuel comments parentId = Some forest →
  (q, siblings) ∈ siblingGroups parentId forest →
  siblings ≡ₚ filter (λ c, Comment.parentId c = q) comments ∧
  StronglySorted notAfter siblings ∧
  ∀ t, filter (λ c, Comment.createdAt c = t) siblings =
       filter (λ c, Comment.createdAt c = t)
         (filter (λ c, Comment.parentId c = q) comments).
Proof.
  intros Hrun Hin.
  rewrite (CommentTree_siblingGroups _ _ _ _ _ _ Hrun Hin). split_and!.
  - apply childComments_Permutation.
  - apply childComments_sorted.
  - apply childComments_stable.
Qed.

Lemma siblings_oldest_first_witness :
  let comments :=
    [Sample.comment "a" PNull 100; Sample.comment "e" PNull 100;
     Sample.comment "c" PNull 50; Sample.comment "g" (PId "a") 7;
     Sample.comment "f" (PId "a") 7] in
  let siblings := [Sample.comment "g" (PId "a") 7; Sample.comment "f" (PId "a") 7] in
  CommentTree 3 comments PAbsent =
    Some [mkNode (Sample.comment "c" PNull 50) [];
          mkNode (Sample.comment "a" PNull 100)
            [mkNode (Sample.comment "g" (PId "a") 7) [];
             mkNode (Sample.comment "f" (PId "a") 7) []];
          mkNode (Sample.comment "e" PNull 100) []] ∧
  siblings ≡ₚ filter (λ c, Comment.parentId c = PId "a") comments ∧
  StronglySorted notAfter siblings ∧
  ∀ t, filter (λ c, Comment.createdAt c = t) siblings =
       filter (λ c, Comment.createdAt c = t)
         (filter (λ c, Comment.parentId c = PId "a") comments).
Proof.
  intros comments siblings.
  assert (CommentTree 3 comments PAbsent =
    Some [mkNode (Sample.comment "c" PNull 50) [];
          mkNode (Sample.comment "a" PNull 100)
            [mkNode (Sample.comment "g" (PId "a") 7) [];
             mkNode (Sample.comment "f" (PId "a") 7) []];
          mkNode (Sample.comment "e" PNull 100) []]) as Hrun.
  { vm_compute. reflexivity. }
  split; [exact Hrun|].
  apply (siblings_oldest_first 3 comments PAbsent _ (PId "a") siblings Hrun).
  vm_compute. do 2 right. left.
Defined.

(** C5. A comment of the collection whose [parentId] is not [null] and is
    the id of no comment of the collection is no node of any forest that
    the root call returns, and the root call runs as it does on the
    collection without that comment: it returns the same forest, and with
    distinct ids it does return one. *)
Theorem orphan_excluded (comments : list Comment) (c : Comment) :
  c ∈ comments →
  Comment.parentId c ≠ PNull →
  (∀ c', c' ∈ comments → Comment.parentId c ≠ PId (Comment.id c')) →
  (∀ fuel forest,
     CommentTree fuel comments PAbsent = Some forest → c ∉ flatten forest) ∧
  (∀ fuel l1 l2,
     comments = l1 ++ c :: l2 →
     CommentTree fuel comments PAbsent = CommentTree fuel (l1 ++ l2) PAbsent) ∧
  (distinctIds comments → is_Some (buildForest comments)).
Proof.
  intros Hc Hnull Hids. split_and!.
  - intros fuel forest Hrun Hin.
    destruct (CommentTree_flatten _ _ _ _ _ Hrun Hin)
      as [_ [Hp|(c' & Hc' & Hp)]]; [done|].
    apply (CommentTree_flatten _ _ _ _ _ Hrun) in Hc' as [Hc' _].
    by apply (Hids c').
  - intros fuel l1 l2 ->. apply CommentTree_skip; [done|].
    intros c' Hc'. apply Hids.
    apply elem_of_app in Hc' as [?|?]; apply elem_of_app; [by left|].
    right. by right.
  - intros Hdistinct. unfold buildForest.
    apply (CommentTree_returns comments _ PAbsent []); [done|constructor|].
    simpl. lia.
Qed.

Lemma orphan_excluded_witness :
  Sample.d ∈ Sample.thread ∧
  buildForest Sample.thread =
    Some [mkNode Sample.c []; mkNode Sample.a [mkNode Sample.b []]] ∧
  Sample.d ∉ flatten [mkNode Sample.c []; mkNode Sample.a [mkNode Sample.b []]].
Proof.
  assert (Sample.d ∈ Sample.thread) as Hd by (do 3 right; left).
  assert (buildForest Sample.thread =
    Some [mkNode Sample.c []; mkNode Sample.a [mkNode Sample.b []]])
    as Hrun by (vm_compute; reflexivity).
  split; [exact Hd|]. split; [exact Hrun|].
  refine (proj1 (orphan_excluded Sample.thread Sample.d Hd _ _) _ _ Hrun).
  - discriminate.
  - intros c' Hc'. unfold Sample.thread in Hc'.
    repeat (apply elem_of_cons in Hc' as [->|Hc']; [discriminate|]).
    by apply elem_of_nil in Hc'.
Defined.

Lemma tc_replyTo_source comments c c' :
  tc (replyTo comments) c c' → c ∈ comments.
Proof. destruct 1 as [c c' (Hc & _)|c c1 c' (Hc & _) _]; done. Qed.

Lemma levels_acyclic comments :
  distinctIds comments →
  (∀ c, c ∈ comments → ∃ n, level comments n c) →
  acyclic comments.
Proof.
  intros Hids Hlevels c Hcycle.
  destruct (Hlevels c (tc_replyTo_source _ _ _ Hcycle)) as [n Hn].
  by apply (level_not_onCycle comments n c).
Qed.

(** Adding comments keeps the depth of those that were there. *)
Lemma level_mono comments more n c :
  level comments n c → level (comments ++ more) n c.
Proof.
  induction 1 as [c Hc Hp|n c' c _ IH Hc Hp].
  - constructor; [|done]. apply elem_of_app. by left.
  - econstructor; [exact IH| |done]. apply elem_of_app. by left.
Qed.

(** The data model's invariants hold by construction: in a collection
    built by posting, every [parentId] that is not [null] is the id of a
    comment of the collection, the ids are pairwise distinct and no comment
    is, through replies, a reply to itself. *)
Lemma posted_invariants comments :
  posted comments →
  resolves comments ∧ distinctIds comments ∧ acyclic comments.
Proof.
  intros Hposted.
  assert (resolves comments ∧ distinctIds comments ∧
          ∀ c, c ∈ comments → ∃ n, level comments n c) as (Hres & Hids & Hlevels).
  { induction Hposted as [|comments c _ (Hres & Hids & Hlevels) Hfresh Hparent].
    - split_and!.
      + intros c Hc. by apply elem_of_nil in Hc.
      + apply NoDup_nil_2.
      + intros c Hc. by apply elem_of_nil in Hc.
    - split_and!.
      + intros x Hx Hp. apply elem_of_app in Hx as [Hx|Hx].
        * destruct (Hres x Hx Hp) as (c' & Hc' & Href).
          exists c'. split; [|done]. apply elem_of_app. by left.
        * apply list_elem_of_singleton in Hx as ->.
          destruct Hparent as [Hnull|(c' & Hc' & Href)]; [done|].
          exists c'. split; [|done]. apply elem_of_app. by left.
      + unfold distinctIds. rewrite fmap_app. apply NoDup_app. split_and!.
        * exact Hids.
        * intros i Hi Hin. apply list_elem_of_singleton in Hin as ->. done.
        * apply NoDup_singleton.
      + intros x Hx. apply elem_of_app in Hx as [Hx|Hx].
        * destruct (Hlevels x Hx) as [n Hn]. exists n. by apply level_mono.
        * apply list_elem_of_singleton in Hx as ->.
          assert (c ∈ comments ++ [c]) as Hc.
          { apply elem_of_app. right. by apply list_elem_of_singleton. }
          destruct Hparent as [Hnull|(c' & Hc' & Href)].
          -- exists 0%nat. by constructor.
          -- destruct (Hlevels c' Hc') as [n Hn]. exists (S n).
             apply (level_reply _ _ c'); [by apply level_mono|done..]. }
  split_and!; [done..|]. by apply levels_acyclic.
Qed.

(** The invariants are what the tree builder relies on; it checks none of
    them. On a comment stored as a reply to itself, which posting cannot
    build, the reference resolves, no call lists the comment, and the
    forest is empty. *)
Example self_reply_is_dropped :
  let comments := [Sample.comment "a" (PId "a") 100] in
  resolves comments ∧ ¬ acyclic comments ∧ ¬ posted comments ∧
  buildForest comments = Some [].
Proof.
  intros comments.
  assert (¬ acyclic comments) as Hcyc.
  { intros Hacyc. apply (Hacyc (Sample.comment "a" (PId "a") 100)).
    apply tc_once. by repeat split; try left. }
  split_and!.
  - intros c Hc _. exists c. split; [done|].
    apply list_elem_of_singleton in Hc. by subst.
  - exact Hcyc.
  - intros Hposted. by destruct (posted_invariants _ Hposted) as (_ & _ & Hacyc).
  - vm_compute. reflexivity.
Qed.

(** On two comments stored under one id, which posting cannot build
    either, a reply to that id is listed under both. *)
Example shared_id_lists_reply_twice :
  let comments :=
    [Sample.comment "a" PNull 1; Sample.comment "a" PNull 2;
     Sample.comment "b" (PId "a") 3] in
  resolves comments ∧ ¬ distinctIds comments ∧
  ∃ forest,
    buildForest comments = Some forest ∧
    length (allNodes forest) = 4%nat ∧ length comments = 3%nat.
Proof.
  intros comments. split_and!.
  - intros c Hc Hp. exists (Sample.comment "a" PNull 1). split; [by left|].
    unfold comments in Hc.
    repeat (apply elem_of_cons in Hc as [->|Hc]; [done|]).
    by apply elem_of_nil in Hc.
  - unfold distinctIds. compute_done.
  - eexists. split; [vm_compute; reflexivity|]. done.
Qed.

(** C1. For a collection of the data model, in which every [parentId]
    that is not [null] is the id of a comment of the collection, the ids
    are unique and, by construction, no comment is through replies a reply
    to itself ([posted_invariants]), the root call returns a forest with as
    many nodes as the collection has comments, the nodes hold the comments
    of the collection, each once, and the replies of every node are the
    comments of the collection whose [parentId] is the id of that node. *)
Theorem forest_reconstruction (comments : list Comment) :
  resolves comments →
  distinctIds comments →
  acyclic comments →
  ∃ forest,
    buildForest comments = Some forest ∧
    length (allNodes forest) = length comments ∧
    flatten forest ≡ₚ comments ∧
    ∀ n, n ∈ allNodes forest →
      payload <$> replies n ≡ₚ
      filter (λ c, Comment.parentId c = PId (Comment.id (payload n))) comments.
Proof.
  intros Hres Hids Hacyc. unfold buildForest.
  destruct (CommentTree_returns comments (S (length comments)) PAbsent [] Hids)
    as [forest Hrun]; [constructor|simpl; lia|].
  assert (flatten forest ≡ₚ comments) as Hperm.
  { eapply flatten_Permutation; [done| |done].
    intros c Hc. by apply resolves_acyclic_level. }
  exists forest. split_and!.
  - done.
  - rewrite <- Hperm. unfold flatten. by rewrite length_fmap.
  - done.
  - intros n Hn.
    destruct (CommentTree_nodes _ _ _ _ Hrun) as [_ Hnodes].
    destruct (Hnodes n Hn) as [_ ->]. apply childComments_Permutation.
Qed.

Lemma forest_reconstruction_witness :
  let comments := [Sample.a; Sample.b; Sample.c] in
  resolves comments ∧ distinctIds comments ∧ acyclic comments ∧
  ∃ forest,
    buildForest comments = Some forest ∧
    length (allNodes forest) = length comments ∧
    flatten forest ≡ₚ comments ∧
    ∀ n, n ∈ allNodes forest →
      payload <$> replies n ≡ₚ
      filter (λ c, Comment.parentId c = PId (Comment.id (payload n))) comments.
Proof.
  intros comments.
  assert (Sample.a ∈ comments) as Ha by left.
  assert (Sample.b ∈ comments) as Hb by (right; left).
  assert (Sample.c ∈ comments) as Hc by (do 2 right; left).
  assert (resolves comments) as Hres.
  { intros c Hin Hp. exists Sample.a. split; [done|].
    unfold comments in Hin.
    repeat (apply elem_of_cons in Hin as [->|Hin]; [done|]).
    by apply elem_of_nil in Hin. }
  assert (distinctIds comments) as Hids by (unfold distinctIds; compute_done).
  assert (acyclic comments) as Hacyc.
  { apply levels_acyclic; [done|]. intros c Hin. unfold comments in Hin.
    apply elem_of_cons in Hin as [->|Hin]; [exists 0%nat; by constructor|].
    apply elem_of_cons in Hin as [->|Hin].
    { exists 1%nat. apply (level_reply _ _ Sample.a); [by constructor|done..]. }
    apply elem_of_cons in Hin as [->|Hin]; [exists 0%nat; by constructor|].
    by apply elem_of_nil in Hin. }
  split; [exact Hres|]. split; [exact Hids|]. split; [exact Hacyc|].
  exact (forest_reconstruction comments Hres Hids Hacyc).
Defined.

(** * The claims on the stored collection *)

Lemma appendComment_frame episodeId c episodes :
  Forall2
    (λ ep ep',
       ep ∈ episodes ∧
       sameButComments ep ep' ∧
       Episode.comments ep' =
         if decide (Episode.id ep = episodeId)
         then Episode.comments ep ++ [c]
         else Episode.comments ep)
    episodes (appendComment episodeId c episodes).
Proof.
  unfold appendComment. apply Forall2_fmap_r, Forall_Forall2_diag.
  apply Forall_forall. intros ep Hep. unfold compose.
  destruct (decide (Episode.id ep = episodeId)); split_and!; done.
Qed.

Lemma distinctIds_push comments c :
  distinctIds comments →
  (∀ c', c' ∈ comments → Comment.id c' ≠ Comment.id c) →
  distinctIds (comments ++ [c]).
Proof.
  unfold distinctIds. intros Hids Hfresh.
  rewrite fmap_app. apply NoDup_app. split_and!.
  - done.
  - intros i Hi Hi'. apply list_elem_of_singleton in Hi'. subst.
    apply list_elem_of_fmap in Hi as (c' & Heq & Hc').
    by apply (Hfresh c').
  - apply NoDup_singleton.
Qed.

(** C8. A call of [addComment] builds a comment whose [id] is the reading
    of the id generator, so it is the id of no stored comment when the
    reading is fresh, whose [createdAt] is the reading of the clock, whose
    [likes] and [dislikes] are empty, and whose [parentId] is the one the
    caller gave. When the story exists the comment is put at the end of
    the comments of every episode with the given id, whatever its
    [parentId] refers to; no other field of the story or of an episode
    changes, and comments with distinct ids keep distinct ids. *)
Theorem addComment_creates (env : Env) (db : Stories)
    (storyId episodeId : string) (commentData : CommentData) :
  freshIn db (autoId env) →
  let c := newComment env commentData in
  (∀ c', stored db c' → Comment.id c' ≠ Comment.id c) ∧
  Comment.createdAt c = now env ∧
  Comment.likes c = [] ∧
  Comment.dislikes c = [] ∧
  Comment.parentId c = CommentData.parentId commentData ∧
  (∀ story, db !! storyId = Some story →
     ∃ story',
       addComment env db storyId episodeId commentData !! storyId = Some story' ∧
       sameButEpisodes story story' ∧
       Forall2
         (λ ep ep',
            sameButComments ep ep' ∧
            Episode.comments ep' =
              (if decide (Episode.id ep = episodeId)
               then Episode.comments ep ++ [c]
               else Episode.comments ep) ∧
            (distinctIds (Episode.comments ep) →
             distinctIds (Episode.comments ep')))
         (Story.episodes story) (Story.episodes story')).
Proof.
  intros Hfresh c. split_and!; [exact Hfresh|done..|].
  intros story Hstory. unfold addComment. rewrite Hstory.
  eexists. split; [apply lookup_insert_eq|]. split; [repeat split|]. simpl.
  fold c.
  eapply Forall2_impl; [apply appendComment_frame|]. simpl.
  intros ep ep' (Hep & Hsame & Hcomments).
  split_and!; [done..|]. intros Hids. rewrite Hcomments.
  destruct (decide (Episode.id ep = episodeId)); [|done].
  apply distinctIds_push; [done|].
  intros c' Hc'. apply Hfresh. by exists storyId, story, ep.
Qed.

Lemma stored_db1 c :
  stored SampleStore.db1 c → c ∈ Sample.thread.
Proof.
  intros (storyId & story & ep & Hstory & Hep & Hc).
  unfold SampleStore.db1 in Hstory.
  apply lookup_singleton_Some in Hstory as [_ <-]. simpl in Hep.
  apply list_elem_of_singleton in Hep. by subst.
Qed.

Lemma toggleCommentVote_no_match_witness :
  (∀ story ep c,
     SampleStore.db1 !! "s1" = Some story → ep ∈ Story.episodes story →
     Episode.id ep = "e1" → c ∈ Episode.comments ep →
     Comment.id c ≠ "nope") ∧
  toggleCommentVote SampleStore.db1 "s1" "e1" "nope" "u1" Like
    = SampleStore.db1.
Proof.
  assert (∀ story ep c,
     SampleStore.db1 !! "s1" = Some story → ep ∈ Story.episodes story →
     Episode.id ep = "e1" → c ∈ Episode.comments ep →
     Comment.id c ≠ "nope") as Hno.
  { intros story ep c Hstory Hep _ Hc.
    assert (c ∈ Sample.thread) as Hin.
    { apply stored_db1. by exists "s1", story, ep. }
    unfold Sample.thread in Hin.
    repeat (apply elem_of_cons in Hin as [->|Hin]; [discriminate|]).
    by apply elem_of_nil in Hin. }
  split; [exact Hno|].
  exact (toggleCommentVote_no_match SampleStore.db1 "s1" "e1" "nope" "u1" Like Hno).
Defined.

Lemma addComment_creates_witness :
  freshIn SampleStore.db1 (autoId SampleStore.env1) ∧
  Comment.parentId (newComment SampleStore.env1 SampleStore.reply)
    = PId "ghost" ∧
  addComment SampleStore.env1 SampleStore.db1 "s1" "e1" SampleStore.reply
    !! "s1" =
  Some (Story.withEpisodes SampleStore.story1
          [Episode.withComments SampleStore.episode1
             (Sample.thread ++
              [newComment SampleStore.env1 SampleStore.reply])]).
Proof.
  assert (freshIn SampleStore.db1 (autoId SampleStore.env1)) as Hfresh.
  { intros c Hc. apply stored_db1 in Hc. unfold Sample.thread in Hc.
    repeat (apply elem_of_cons in Hc as [->|Hc]; [discriminate|]).
    by apply elem_of_nil in Hc. }
  split; [exact Hfresh|].
  destruct (addComment_creates SampleStore.env1 SampleStore.db1 "s1" "e1"
              SampleStore.reply Hfresh)
    as (_ & _ & _ & _ & Hparent & _).
  split; [exact Hparent|].
  unfold addComment, SampleStore.db1.
  rewrite lookup_singleton_eq. apply lookup_insert_eq.
Defined.

Example toggleCommentVote_example :
  toggleCommentVote SampleStore.db1 "s1" "e1" "a" "u1" Like !! "s1" =
  Some (Story.withEpisodes SampleStore.story1
          [Episode.withComments SampleStore.episode1
             [Comment.withVotes Sample.a ["u1"] [];
              Sample.b; Sample.c; Sample.d]]).
Proof.
  unfold toggleCommentVote, SampleStore.db1.
  rewrite lookup_singleton_eq. apply lookup_insert_eq.
Qed.

(** * The storage service beyond comments *)

Section EpisodeOperations.

Implicit Types (db : Stories) (ep : Episode) (episodes : list Episode)
  (storyId episodeId userId : string).

Lemma toggleCommentVote_updateEpisodes db storyId episodeId commentId userId voteType :
  toggleCommentVote db storyId episodeId commentId userId voteType =
  updateEpisodes db storyId (voteInEpisodes episodeId commentId userId voteType).
Proof. done. Qed.

Lemma addComment_updateEpisodes env db storyId episodeId commentData :
  addComment env db storyId episodeId commentData =
  updateEpisodes db storyId
    (appendComment episodeId (newComment env commentData)).
Proof. done. Qed.

Lemma toggleLike_updateEpisodes db storyId episodeId userId :
  toggleLike db storyId episodeId userId =
  updateEpisodes db storyId (likeInEpisodes episodeId userId).
Proof. done. Qed.

Lemma deleteEpisode_updateEpisodes db storyId episodeId :
  deleteEpisode db storyId episodeId =
  updateEpisodes db storyId (filter (λ ep, Episode.id ep ≠ episodeId)).
Proof. done. Qed.

Lemma toggleEpisodeStatus_updateEpisodes db storyId episodeId :
  toggleEpisodeStatus db storyId episodeId =
  updateEpisodes db storyId (statusInEpisodes episodeId).
Proof. done. Qed.

Lemma incrementEpisodeView_updateEpisodes db storyId episodeId :
  incrementEpisodeView db storyId episodeId =
  updateEpisodes db storyId (viewInEpisodes episodeId).
Proof. done. Qed.

Lemma withEpisodes_withEpisodes (s : Story) episodes episodes' :
  Story.withEpisodes (Story.withEpisodes s episodes) episodes' =
  Story.withEpisodes s episodes'.
Proof. done. Qed.

Lemma updateEpisodes_same db storyId (change : list Episode → list Episode) :
  (∀ story, db !! storyId = Some story →
            change (Story.episodes story) = Story.episodes story) →
  updateEpisodes db storyId change = db.
Proof.
  intros Hsame. unfold updateEpisodes.
  destruct (db !! storyId) as [story|] eqn:Hstory; [|done].
  rewrite Hsame by done. rewrite withEpisodes_same. by apply insert_id.
Qed.

(** Two rebuilds in a row are one rebuild by the composed change. *)
Lemma updateEpisodes_twice db storyId (f g : list Episode → list Episode) :
  updateEpisodes (updateEpisodes db storyId f) storyId g =
  updateEpisodes db storyId (g ∘ f).
Proof.
  unfold updateEpisodes.
  destruct (db !! storyId) as [story|] eqn:Hstory.
  - rewrite lookup_insert_eq. simpl. by rewrite insert_insert_eq.
  - by rewrite Hstory.
Qed.

Lemma updateEpisodes_ext db storyId (f g : list Episode → list Episode) :
  (∀ episodes, f episodes = g episodes) →
  updateEpisodes db storyId f = updateEpisodes db storyId g.
Proof.
  intros Hfg. unfold updateEpisodes.
  destruct (db !! storyId); [|done]. by rewrite Hfg.
Qed.

(** Rebuilds whose changes commute commute, in one story or in two. *)
Lemma updateEpisodes_commute db storyId1 storyId2
    (f g : list Episode → list Episode) :
  (∀ episodes, g (f episodes) = f (g episodes)) →
  updateEpisodes (updateEpisodes db storyId1 f) storyId2 g =
  updateEpisodes (updateEpisodes db storyId2 g) storyId1 f.
Proof.
  intros Hfg. destruct (decide (storyId1 = storyId2)) as [<-|Hne].
  - rewrite !updateEpisodes_twice. apply updateEpisodes_ext.
    intros episodes. simpl. apply Hfg.
  - unfold updateEpisodes.
    destruct (db !! storyId1) as [story1|] eqn:H1,
             (db !! storyId2) as [story2|] eqn:H2.
    + rewrite !lookup_insert_ne, H1, H2 by done. by apply insert_insert_ne.
    + by rewrite ?lookup_insert_ne, ?H1, ?H2 by done.
    + by rewrite ?lookup_insert_ne, ?H1, ?H2 by done.
    + by rewrite ?H1, ?H2.
Qed.

Lemma fmap_commute_pointwise (f g : Episode → Episode) episodes :
  (∀ ep, g (f ep) = f (g ep)) →
  g <$> (f <$> episodes) = f <$> (g <$> episodes).
Proof.
  intros Hfg. rewrite <- !list_fmap_compose. apply list_fmap_ext.
  intros i ep _. simpl. apply Hfg.
Qed.

End EpisodeOperations.

Section Likes.

Implicit Types (likes : list string) (userId u : string).

Lemma without_without userId likes :
  without userId (without userId likes) = without userId likes.
Proof. apply without_absent, without_self. Qed.

Lemma without_snoc userId likes :
  without userId (likes ++ [userId]) = without userId likes.
Proof.
  unfold without. rewrite filter_app, filter_cons_False by tauto.
  by rewrite filter_nil, app_nil_r.
Qed.

Lemma toggledLikes_flips likes userId :
  userId ∈ toggledLikes likes userId ↔ userId ∉ likes.
Proof.
  unfold toggledLikes. destruct (includes likes userId) eqn:Hin.
  - apply includes_true in Hin. pose proof (without_self userId likes). tauto.
  - apply includes_false in Hin.
    rewrite elem_of_app, list_elem_of_singleton. tauto.
Qed.

Lemma toggledLikes_others likes userId :
  without userId (toggledLikes likes userId) = without userId likes.
Proof.
  unfold toggledLikes. destruct (includes likes userId).
  - apply without_without.
  - apply without_snoc.
Qed.

Lemma toggledLikes_NoDup likes userId :
  NoDup likes → NoDup (toggledLikes likes userId).
Proof.
  intros Hnd. unfold toggledLikes. destruct (includes likes userId) eqn:Hin.
  - by apply NoDup_without.
  - apply includes_false in Hin. by apply NoDup_push.
Qed.

Lemma toggledLikes_twice likes userId :
  userId ∉ likes → toggledLikes (toggledLikes likes userId) userId = likes.
Proof.
  intros Hnot. unfold toggledLikes at 2.
  rewrite (proj2 (includes_false _ _) Hnot). unfold toggledLikes.
  assert (includes (likes ++ [userId]) userId = true) as ->.
  { apply includes_true, elem_of_app. right. by apply list_elem_of_singleton. }
  by apply without_push.
Qed.

End Likes.

(** X1. [toggleLike] on a story that exists rewrites only the [likes] of
    the episodes with the given id: there the user is a member afterwards
    exactly when it was not before, everybody else's likes stay, in their
    order, and a list without repetitions stays one. Every other field,
    episode and story is as before. *)
Theorem toggleLike_flips (db : Stories) (storyId episodeId userId : string)
    (story : Story) :
  db !! storyId = Some story →
  (∀ other, other ≠ storyId →
     toggleLike db storyId episodeId userId !! other = db !! other) ∧
  ∃ story',
    toggleLike db storyId episodeId userId !! storyId = Some story' ∧
    sameButEpisodes story story' ∧
    Forall2
      (λ ep ep',
         sameButLikes ep ep' ∧
         (Episode.id ep ≠ episodeId → ep' = ep) ∧
         (Episode.id ep = episodeId →
          (userId ∈ Episode.likes ep' ↔ userId ∉ Episode.likes ep) ∧
          without userId (Episode.likes ep') = without userId (Episode.likes ep) ∧
          (NoDup (Episode.likes ep) → NoDup (Episode.likes ep'))))
      (Story.episodes story) (Story.episodes story').
Proof.
  intros Hstory. unfold toggleLike. rewrite Hstory. split.
  - intros other Hne. by rewrite lookup_insert_ne.
  - eexists. split; [apply lookup_insert_eq|]. split; [repeat split|]. simpl.
    unfold likeInEpisodes. apply Forall2_fmap_r, Forall_Forall2_diag.
    apply Forall_forall. intros ep _. unfold compose.
    destruct (decide (Episode.id ep = episodeId)) as [Heq|Hne].
    + split_and!; [repeat split|done|]. intros _. simpl. split_and!.
      * apply toggledLikes_flips.
      * apply toggledLikes_others.
      * apply toggledLikes_NoDup.
    + split_and!; [repeat split|done..].
Qed.

Lemma toggleLike_flips_witness :
  SampleStore.db1 !! "s1" = Some SampleStore.story1 ∧
  ∃ story',
    toggleLike SampleStore.db1 "s1" "e1" "u1" !! "s1" = Some story' ∧
    Forall2
      (λ ep ep',
         Episode.id ep = "e1" →
         ("u1" ∈ Episode.likes ep' ↔ "u1" ∉ Episode.likes ep))
      (Story.episodes SampleStore.story1) (Story.episodes story').
Proof.
  assert (SampleStore.db1 !! "s1" = Some SampleStore.story1) as Hstory.
  { apply lookup_singleton_eq. }
  split; [exact Hstory|].
  destruct (toggleLike_flips SampleStore.db1 "s1" "e1" "u1" _ Hstory)
    as (_ & story' & Hlookup & _ & Hall).
  exists story'. split; [exact Hlookup|].
  eapply Forall2_impl; [exact Hall|]. simpl.
  intros ep ep' (_ & _ & Hflip) Heq. by apply Hflip.
Defined.

(** X2. A like taken back: for a user who is in the [likes] of no episode
    with the given id, two calls of [toggleLike] in a row leave the whole
    collection as it was. *)
Theorem toggleLike_twice (db : Stories) (storyId episodeId userId : string) :
  (∀ story ep,
     db !! storyId = Some story → ep ∈ Story.episodes story →
     Episode.id ep = episodeId → userId ∉ Episode.likes ep) →
  toggleLike (toggleLike db storyId episodeId userId) storyId episodeId userId
    = db.
Proof.
  intros Hnot. rewrite !toggleLike_updateEpisodes, updateEpisodes_twice.
  apply updateEpisodes_same. intros story Hstory. simpl.
  unfold likeInEpisodes. rewrite <- list_fmap_compose.
  rewrite <- (list_fmap_id (Story.episodes story)) at 2.
  apply list_fmap_ext. intros i ep Hep. simpl.
  apply list_elem_of_lookup_2 in Hep.
  destruct (decide (Episode.id ep = episodeId)) as [Heq|Hne]; simpl.
  - rewrite decide_True by done. simpl.
    rewrite toggledLikes_twice by (by eapply Hnot). by destruct ep.
  - by rewrite decide_False.
Qed.

Lemma toggleLike_twice_witness :
  (∀ story ep,
     SampleStore.db1 !! "s1" = Some story → ep ∈ Story.episodes story →
     Episode.id ep = "e1" → "u1" ∉ Episode.likes ep) ∧
  toggleLike (toggleLike SampleStore.db1 "s1" "e1" "u1") "s1" "e1" "u1"
    = SampleStore.db1.
Proof.
  assert (∀ story ep,
     SampleStore.db1 !! "s1" = Some story → ep ∈ Story.episodes story →
     Episode.id ep = "e1" → "u1" ∉ Episode.likes ep) as Hnot.
  { intros story ep Hstory Hep _.
    unfold SampleStore.db1 in Hstory.
    apply lookup_singleton_Some in Hstory as [_ <-]. simpl in Hep.
    apply list_elem_of_singleton in Hep. subst. simpl.
    intros Hin. by apply elem_of_nil in Hin. }
  split; [exact Hnot|].
  exact (toggleLike_twice SampleStore.db1 "s1" "e1" "u1" Hnot).
Defined.

(** X3. [deleteEpisode] on a story that exists keeps, in their order, the
    episodes with another id and no other: no episode with the given id is
    left, and the story's other fields and the other stories are as before.
    A second call changes nothing more, and a call for an id that no
    episode of the story has changes nothing at all. *)
Theorem deleteEpisode_removes (db : Stories) (storyId episodeId : string)
    (story : Story) :
  db !! storyId = Some story →
  (∀ other, other ≠ storyId →
     deleteEpisode db storyId episodeId !! other = db !! other) ∧
  (∃ story',
     deleteEpisode db storyId episodeId !! storyId = Some story' ∧
     sameButEpisodes story story' ∧
     Story.episodes story' `sublist_of` Story.episodes story ∧
     ∀ ep, ep ∈ Story.episodes story' ↔
           ep ∈ Story.episodes story ∧ Episode.id ep ≠ episodeId) ∧
  deleteEpisode (deleteEpisode db storyId episodeId) storyId episodeId
    = deleteEpisode db storyId episodeId ∧
  ((∀ ep, ep ∈ Story.episodes story → Episode.id ep ≠ episodeId) →
   deleteEpisode db storyId episodeId = db).
Proof.
  intros Hstory. split_and!.
  - intros other Hne. unfold deleteEpisode. rewrite Hstory.
    by rewrite lookup_insert_ne.
  - unfold deleteEpisode. rewrite Hstory.
    eexists. split; [apply lookup_insert_eq|]. split; [repeat split|]. simpl.
    split; [apply sublist_filter|].
    intros ep. rewrite list_elem_of_filter. tauto.
  - rewrite !deleteEpisode_updateEpisodes, updateEpisodes_twice.
    apply updateEpisodes_ext. intros episodes. simpl.
    rewrite list_filter_filter. apply list_filter_iff. tauto.
  - intros Hno. rewrite deleteEpisode_updateEpisodes.
    apply updateEpisodes_same. intros story0 Hstory0.
    assert (story0 = story) as -> by congruence.
    induction (Story.episodes story) as [|ep eps IH]; [done|].
    rewrite filter_cons_True by (apply Hno; left).
    f_equal. apply IH. intros ep' Hep'. apply Hno. by right.
Qed.

Lemma deleteEpisode_removes_witness :
  SampleStore.db1 !! "s1" = Some SampleStore.story1 ∧
  deleteEpisode SampleStore.db1 "s1" "e1" !! "s1" =
    Some (Story.withEpisodes SampleStore.story1 []) ∧
  deleteEpisode (deleteEpisode SampleStore.db1 "s1" "e1") "s1" "e1"
    = deleteEpisode SampleStore.db1 "s1" "e1".
Proof.
  assert (SampleStore.db1 !! "s1" = Some SampleStore.story1) as Hstory.
  { apply lookup_singleton_eq. }
  split; [exact Hstory|]. split.
  - unfold deleteEpisode. rewrite Hstory. apply lookup_insert_eq.
  - exact (proj1 (proj2 (proj2
      (deleteEpisode_removes SampleStore.db1 "s1" "e1" _ Hstory)))).
Defined.

Lemma flipStatus_flipStatus status : flipStatus (flipStatus status) = status.
Proof. by destruct status. Qed.

(** X4. Publishing and unpublishing undo each other: two calls of
    [toggleEpisodeStatus] in a row, and two calls of [toggleStoryStatus] in
    a row, leave the whole collection as it was, whatever it holds. *)
Theorem status_toggles_undo (db : Stories) (storyId episodeId : string) :
  toggleEpisodeStatus (toggleEpisodeStatus db storyId episodeId)
    storyId episodeId = db ∧
  toggleStoryStatus (toggleStoryStatus db storyId) storyId = db.
Proof.
  split.
  - rewrite !toggleEpisodeStatus_updateEpisodes, updateEpisodes_twice.
    apply updateEpisodes_same. intros story _. simpl.
    unfold statusInEpisodes. rewrite <- list_fmap_compose.
    rewrite <- (list_fmap_id (Story.episodes story)) at 2.
    apply list_fmap_ext. intros i ep _. simpl.
    destruct (decide (Episode.id ep = episodeId)) as [Heq|Hne]; simpl.
    + rewrite decide_True by done. simpl.
      rewrite flipStatus_flipStatus. by destruct ep.
    + by rewrite decide_False.
  - unfold toggleStoryStatus.
    destruct (db !! storyId) as [story|] eqn:Hstory.
    + rewrite lookup_insert_eq, insert_insert_eq. simpl.
      rewrite flipStatus_flipStatus.
      replace (withStoryStatus _ _) with story by (by destruct story).
      by apply insert_id.
    + by rewrite Hstory.
Qed.

Lemma orZero_id x : orZero x = x.
Proof. unfold orZero. by destruct (decide (x = 0)). Qed.

(** Up to [2 ^ 53] the sum is the exact one. *)
Lemma plusOne_exact x :
  - 2 ^ 53 ≤ x → x + 1 ≤ 2 ^ 53 → plusOne x = x + 1.
Proof.
  intros Hlow Hhigh. unfold plusOne, nearestNumber. simpl.
  apply decide_True. lia.
Qed.

(** At [2 ^ 53] the sum is rounded back: the number stays as it is. *)
Lemma plusOne_limit : plusOne (2 ^ 53) = 2 ^ 53.
Proof. vm_compute. reflexivity. Qed.

(** Beyond it the sum is the number itself or the next number. *)
Example plusOne_beyond_limit :
  plusOne (2 ^ 53 + 2) = 2 ^ 53 + 4 ∧ plusOne (2 ^ 53 + 4) = 2 ^ 53 + 4 ∧
  plusOne (- 2 ^ 53 - 2) = - 2 ^ 53.
Proof. vm_compute. done. Qed.

Lemma iter_incrementEpisodeView db storyId episodeId n :
  Nat.iter n (λ db, incrementEpisodeView db storyId episodeId) db =
  updateEpisodes db storyId (Nat.iter n (viewInEpisodes episodeId)).
Proof.
  induction n as [|n IH].
  - simpl. symmetry. by apply updateEpisodes_same.
  - rewrite Nat.iter_succ, IH.
    by rewrite incrementEpisodeView_updateEpisodes, updateEpisodes_twice.
Qed.

Lemma iter_viewInEpisodes episodeId n episodes :
  (∀ ep, ep ∈ episodes → Episode.id ep = episodeId →
         - 2 ^ 53 ≤ Episode.views ep ∧
         Episode.views ep + Z.of_nat n ≤ 2 ^ 53) →
  Nat.iter n (viewInEpisodes episodeId) episodes =
  (λ ep,
     withViews ep
       (Episode.views ep +
        if decide (Episode.id ep = episodeId) then Z.of_nat n else 0))
    <$> episodes.
Proof.
  induction n as [|n IH]; intros Hrange.
  - simpl. rewrite <- (list_fmap_id episodes) at 1.
    apply list_fmap_ext. intros i ep _. simpl.
    destruct ep; unfold withViews; simpl. f_equal.
    destruct (decide _); lia.
  - rewrite Nat.iter_succ, IH.
    2:{ intros ep Hep Hid. destruct (Hrange ep Hep Hid). lia. }
    unfold viewInEpisodes. rewrite <- list_fmap_compose.
    apply list_fmap_ext. intros i ep Hi. simpl.
    destruct (decide (Episode.id ep = episodeId)) as [Heq|Hne].
    + destruct (Hrange ep (list_elem_of_lookup_2 _ _ _ Hi) Heq).
      rewrite orZero_id, plusOne_exact by lia.
      unfold withViews. simpl. f_equal. lia.
    + unfold withViews. simpl. f_equal.
Qed.

(** X5. Views are counted, as far as a number counts: when the views of
    the episodes with the given id are at least [- 2 ^ 53] and, with [n]
    added, at most [2 ^ 53], then after [n] calls of
    [incrementEpisodeView] for one story and episode id every episode of
    the story with that id has [n] views more, every other episode is as
    it was, and so is every field but [views], every other field of the
    story and every other story. *)
Theorem incrementEpisodeView_counts (db : Stories) (storyId episodeId : string)
    (n : nat) (story : Story) :
  db !! storyId = Some story →
  (∀ ep, ep ∈ Story.episodes story → Episode.id ep = episodeId →
         - 2 ^ 53 ≤ Episode.views ep ∧
         Episode.views ep + Z.of_nat n ≤ 2 ^ 53) →
  let db' := Nat.iter n (λ db, incrementEpisodeView db storyId episodeId) db in
  (∀ other, other ≠ storyId → db' !! other = db !! other) ∧
  ∃ story',
    db' !! storyId = Some story' ∧
    sameButEpisodes story story' ∧
    Forall2
      (λ ep ep',
         ep' = withViews ep
                 (Episode.views ep +
                  if decide (Episode.id ep = episodeId) then Z.of_nat n else 0))
      (Story.episodes story) (Story.episodes story').
Proof.
  intros Hstory Hrange db'. subst db'.
  rewrite iter_incrementEpisodeView. unfold updateEpisodes. rewrite Hstory.
  rewrite iter_viewInEpisodes by done. split.
  - intros other Hne. by rewrite lookup_insert_ne.
  - eexists. split; [apply lookup_insert_eq|]. split; [repeat split|]. simpl.
    apply Forall2_fmap_r, Forall_Forall2_diag, Forall_forall. by intros ep _.
Qed.

Lemma incrementEpisodeView_counts_witness :
  SampleStore.db1 !! "s1" = Some SampleStore.story1 ∧
  (∀ ep, ep ∈ Story.episodes SampleStore.story1 → Episode.id ep = "e1" →
         - 2 ^ 53 ≤ Episode.views ep ∧
         Episode.views ep + Z.of_nat 3 ≤ 2 ^ 53) ∧
  Nat.iter 3 (λ db, incrementEpisodeView db "s1" "e1") SampleStore.db1 !! "s1"
    = Some (Story.withEpisodes SampleStore.story1
              [withViews SampleStore.episode1 3]).
Proof.
  assert (SampleStore.db1 !! "s1" = Some SampleStore.story1) as Hstory.
  { apply lookup_singleton_eq. }
  assert (∀ ep, ep ∈ Story.episodes SampleStore.story1 → Episode.id ep = "e1" →
            - 2 ^ 53 ≤ Episode.views ep ∧
            Episode.views ep + Z.of_nat 3 ≤ 2 ^ 53) as Hrange.
  { intros ep Hep _. simpl in Hep.
    apply list_elem_of_singleton in Hep as ->. simpl. lia. }
  split; [exact Hstory|]. split; [exact Hrange|].
  destruct (incrementEpisodeView_counts SampleStore.db1 "s1" "e1" 3 _
              Hstory Hrange)
    as (_ & story' & Hlookup & Hsame & Hall).
  rewrite Hlookup. f_equal.
  simpl in Hall. apply Forall2_cons_inv_l in Hall as (ep' & eps' & Hep' & Hnil & Heq).
  apply Forall2_nil_inv_l in Hnil. subst.
  destruct story', Hsame as (? & ? & ? & ? & ? & ? & ? & ? & ? & ?).
  simpl in *. subst. done.
Defined.

(** The count stops at [2 ^ 53]: from there a call leaves the stored
    collection as it is. *)
Lemma incrementEpisodeView_at_limit (db : Stories) (storyId episodeId : string) :
  (∀ story ep, db !! storyId = Some story → ep ∈ Story.episodes story →
               Episode.id ep = episodeId → Episode.views ep = 2 ^ 53) →
  incrementEpisodeView db storyId episodeId = db.
Proof.
  intros Hlimit. rewrite incrementEpisodeView_updateEpisodes.
  apply updateEpisodes_same. intros story Hstory.
  unfold viewInEpisodes.
  rewrite <- (list_fmap_id (Story.episodes story)) at 2.
  apply list_fmap_ext. intros i ep Hi. simpl.
  destruct (decide (Episode.id ep = episodeId)) as [Heq|Hne]; [|done].
  pose proof (Hlimit story ep Hstory (list_elem_of_lookup_2 _ _ _ Hi) Heq) as Hv.
  rewrite Hv, orZero_id, plusOne_limit, <- Hv. by destruct ep.
Qed.

Ltac episode_cases ep :=
  intros ep; simpl;
  repeat (destruct (decide _); simpl); try done; try congruence.

(** X6. A like, a comment vote and a view count write different fields and
    do not disturb each other: done one after the other in either order,
    on the same or on different stories and episodes, they leave the same
    collection. *)
Theorem like_vote_view_commute (db : Stories)
    (storyId1 episodeId1 userId1 : string)
    (storyId2 episodeId2 commentId userId2 : string) (voteType : VoteType)
    (storyId3 episodeId3 : string) :
  toggleCommentVote (toggleLike db storyId1 episodeId1 userId1)
      storyId2 episodeId2 commentId userId2 voteType =
    toggleLike
      (toggleCommentVote db storyId2 episodeId2 commentId userId2 voteType)
      storyId1 episodeId1 userId1 ∧
  incrementEpisodeView
      (toggleCommentVote db storyId2 episodeId2 commentId userId2 voteType)
      storyId3 episodeId3 =
    toggleCommentVote (incrementEpisodeView db storyId3 episodeId3)
      storyId2 episodeId2 commentId userId2 voteType ∧
  incrementEpisodeView (toggleLike db storyId1 episodeId1 userId1)
      storyId3 episodeId3 =
    toggleLike (incrementEpisodeView db storyId3 episodeId3)
      storyId1 episodeId1 userId1.
Proof.
  rewrite !toggleCommentVote_updateEpisodes, !toggleLike_updateEpisodes,
    !incrementEpisodeView_updateEpisodes.
  split_and!; apply updateEpisodes_commute; intros episodes;
    unfold voteInEpisodes, likeInEpisodes, viewInEpisodes;
    apply fmap_commute_pointwise; episode_cases ep.
Qed.

(** ** An invariant of the whole collection *)

Lemma stored_updateEpisodes (db : Stories) (storyId : string)
    (change : list Episode → list Episode) (c : Comment) :
  stored (updateEpisodes db storyId change) c →
  stored db c ∨
  ∃ story ep,
    db !! storyId = Some story ∧
    ep ∈ change (Story.episodes story) ∧ c ∈ Episode.comments ep.
Proof.
  intros (sid & story' & ep & Hlookup & Hep & Hc). unfold updateEpisodes in Hlookup.
  destruct (db !! storyId) as [story|] eqn:Hstory.
  - destruct (decide (sid = storyId)) as [->|Hne].
    + rewrite lookup_insert_eq in Hlookup. injection Hlookup as <-.
      right. by exists story, ep.
    + rewrite lookup_insert_ne in Hlookup by done.
      left. by exists sid, story', ep.
  - left. by exists sid, story', ep.
Qed.

Lemma storeWellVoted_updateEpisodes (db : Stories) (storyId : string)
    (change : list Episode → list Episode) :
  (∀ episodes,
     (∀ ep c, ep ∈ episodes → c ∈ Episode.comments ep → wellVoted c) →
     ∀ ep c, ep ∈ change episodes → c ∈ Episode.comments ep → wellVoted c) →
  storeWellVoted db → storeWellVoted (updateEpisodes db storyId change).
Proof.
  intros Hchange Hdb c Hc.
  apply stored_updateEpisodes in Hc as [Hc|(story & ep & Hstory & Hep & Hc)].
  - by apply Hdb.
  - eapply (Hchange (Story.episodes story)); [|done..].
    intros ep0 c0 Hep0 Hc0. apply Hdb. by exists storyId, story, ep0.
Qed.

Lemma wellVoted_newComment env commentData :
  wellVoted (newComment env commentData).
Proof.
  split_and!; simpl; [apply NoDup_nil_2..|].
  intros u Hu. by apply elem_of_nil in Hu.
Qed.

Lemma storeWellVoted_call (db : Stories) (c : Call) :
  storeWellVoted db → storeWellVoted (call db c).
Proof.
  intros Hdb. destruct c; simpl.
  - rewrite addComment_updateEpisodes.
    apply storeWellVoted_updateEpisodes; [|done].
    intros episodes Hall ep c Hep Hc. unfold appendComment in Hep.
    apply list_elem_of_fmap in Hep as (ep0 & -> & Hep0).
    destruct (decide (Episode.id ep0 = episodeId)); [|by eapply Hall].
    simpl in Hc. apply elem_of_app in Hc as [Hc|Hc]; [by eapply Hall|].
    apply list_elem_of_singleton in Hc as ->. apply wellVoted_newComment.
  - rewrite toggleCommentVote_updateEpisodes.
    apply storeWellVoted_updateEpisodes; [|done].
    intros episodes Hall ep c Hep Hc. unfold voteInEpisodes in Hep.
    apply list_elem_of_fmap in Hep as (ep0 & -> & Hep0).
    destruct (decide (Episode.id ep0 = episodeId)); [|by eapply Hall].
    simpl in Hc. unfold voteInComments in Hc.
    apply list_elem_of_fmap in Hc as (c0 & -> & Hc0).
    destruct (decide (Comment.id c0 = commentId)); [|by eapply Hall].
    apply toggleVote_wellVoted. by eapply Hall.
  - rewrite toggleLike_updateEpisodes.
    apply storeWellVoted_updateEpisodes; [|done].
    intros episodes Hall ep c Hep Hc. unfold likeInEpisodes in Hep.
    apply list_elem_of_fmap in Hep as (ep0 & -> & Hep0).
    destruct (decide (Episode.id ep0 = episodeId)); by eapply Hall.
  - rewrite deleteEpisode_updateEpisodes.
    apply storeWellVoted_updateEpisodes; [|done].
    intros episodes Hall ep c Hep Hc.
    apply list_elem_of_filter in Hep as [_ Hep]. by eapply Hall.
  - rewrite toggleEpisodeStatus_updateEpisodes.
    apply storeWellVoted_updateEpisodes; [|done].
    intros episodes Hall ep c Hep Hc. unfold statusInEpisodes in Hep.
    apply list_elem_of_fmap in Hep as (ep0 & -> & Hep0).
    destruct (decide (Episode.id ep0 = episodeId)); by eapply Hall.
  - rewrite incrementEpisodeView_updateEpisodes.
    apply storeWellVoted_updateEpisodes; [|done].
    intros episodes Hall ep c Hep Hc. unfold viewInEpisodes in Hep.
    apply list_elem_of_fmap in Hep as (ep0 & -> & Hep0).
    destruct (decide (Episode.id ep0 = episodeId)); by eapply Hall.
  - intros c (sid & story' & ep & Hlookup & Hep & Hc).
    unfold toggleStoryStatus in Hlookup.
    destruct (db !! storyId) as [story|] eqn:Hstory.
    + destruct (decide (sid = storyId)) as [->|Hne].
      * rewrite lookup_insert_eq in Hlookup. injection Hlookup as <-.
        apply Hdb. by exists storyId, story, ep.
      * rewrite lookup_insert_ne in Hlookup by done.
        apply Hdb. by exists sid, story', ep.
    + apply Hdb. by exists sid, story', ep.
  - intros c (sid & story' & ep & Hlookup & Hep & Hc).
    unfold deleteStory in Hlookup. apply lookup_delete_Some in Hlookup as [_ Hlookup].
    apply Hdb. by exists sid, story', ep.
Qed.

(** X7. The vote lists stay well-formed through everything the storage
    service does to stories, episodes and comments: if in every stored
    comment [likes] and [dislikes] are free of repetitions and share no
    user, the same holds after any run of calls of [addComment],
    [toggleCommentVote], [toggleLike], [deleteEpisode],
    [toggleEpisodeStatus], [incrementEpisodeView], [toggleStoryStatus]
    and [deleteStory], with any arguments. *)
Theorem storeWellVoted_calls (db : Stories) (cs : list Call) :
  storeWellVoted db → storeWellVoted (calls db cs).
Proof.
  unfold calls. revert db.
  induction cs as [|c cs IH]; intros db Hdb; simpl; [done|].
  apply IH. by apply storeWellVoted_call.
Qed.

Lemma storeWellVoted_calls_witness :
  storeWellVoted SampleStore.db1 ∧
  storeWellVoted
    (calls SampleStore.db1
       [CallToggleCommentVote "s1" "e1" "a" "u1" Like;
        CallAddComment SampleStore.env1 "s1" "e1" SampleStore.reply;
        CallToggleCommentVote "s1" "e1" "a" "u1" Dislike;
        CallToggleLike "s1" "e1" "u2"]).
Proof.
  assert (storeWellVoted SampleStore.db1) as Hdb.
  { intros c Hc. apply stored_db1 in Hc. unfold Sample.thread in Hc.
    repeat (apply elem_of_cons in Hc as [->|Hc];
            [apply (wellVoted_newComment (mkEnv "i" 0)
                      (CommentData.mk "e1" "u0" "reader" READER "text" PNull))|]).
    by apply elem_of_nil in Hc. }
  split; [exact Hdb|]. exact (storeWellVoted_calls _ _ Hdb).
Defined.

(** * The tree builder beyond the claims *)

Section Visibility.

Context (comments : list Comment).

Lemma rooted_occurrences fuel forest c :
  distinctIds comments →
  CommentTree fuel comments PAbsent = Some forest →
  occurrences c (flatten forest) =
  if decide (c ∈ flatten forest) then 1%nat else 0%nat.
Proof.
  intros Hids Hrun. destruct (decide (c ∈ flatten forest)) as [Hc|Hc].
  - destruct (CommentTree_level comments _ _ _ Hrun (or_introl eq_refl) c Hc)
      as [n Hn].
    by eapply level_occurrences.
  - by apply occurrences_absent.
Qed.

End Visibility.

Lemma flatten_rooted (fuel : nat) (comments : list Comment)
    (forest : list Node) :
  distinctIds comments →
  CommentTree fuel comments PAbsent = Some forest →
  NoDup (flatten forest) ∧
  ∀ c, c ∈ flatten forest ↔ rooted comments c.
Proof.
  intros Hids Hrun. split.
  - apply NoDup_ListNoDup, (NoDup_count_occ Comment_eq_dec). intros c.
    change (occurrences c (flatten forest) ≤ 1)%nat.
    rewrite (rooted_occurrences comments _ _ _ Hids Hrun).
    destruct (decide _); lia.
  - intros c. split.
    + by apply (CommentTree_level comments _ _ _ Hrun (or_introl eq_refl)).
    + intros [n Hn].
      pose proof (level_occurrences comments _ _ _ _ Hids Hrun Hn) as Hocc.
      rewrite (rooted_occurrences comments _ _ _ Hids Hrun) in Hocc.
      by destruct (decide (c ∈ flatten forest)).
Qed.

(** X8. With distinct ids, the nodes of the forest the root call returns
    are the comments connected to a top-level comment by a chain of
    replies, no more and no less, and no comment is a node twice. *)
Theorem forest_shows_rooted (fuel : nat) (comments : list Comment)
    (forest : list Node) :
  distinctIds comments →
  CommentTree fuel comments PAbsent = Some forest →
  NoDup (flatten forest) ∧
  ∀ c, c ∈ flatten forest ↔ rooted comments c.
Proof. apply flatten_rooted. Qed.

Lemma forest_shows_rooted_witness :
  distinctIds Sample.thread ∧
  CommentTree 5 Sample.thread PAbsent =
    Some [mkNode Sample.c []; mkNode Sample.a [mkNode Sample.b []]] ∧
  (rooted Sample.thread Sample.b ∧ ¬ rooted Sample.thread Sample.d).
Proof.
  assert (distinctIds Sample.thread) as Hids by (unfold distinctIds; compute_done).
  assert (CommentTree 5 Sample.thread PAbsent =
    Some [mkNode Sample.c []; mkNode Sample.a [mkNode Sample.b []]]) as Hrun
    by (vm_compute; reflexivity).
  split; [exact Hids|]. split; [exact Hrun|].
  destruct (forest_shows_rooted _ _ _ Hids Hrun) as [_ Hiff]. split.
  - apply Hiff. vm_compute. do 2 right. left.
  - intros Hd. apply Hiff in Hd. vm_compute in Hd.
    repeat (apply elem_of_cons in Hd as [Hd|Hd]; [discriminate|]).
    by apply elem_of_nil in Hd.
Defined.

(** X9. Posting hides nothing: when a comment whose id is new is put at
    the end of a collection with distinct ids, every comment that was a
    node of the forest is a node of the new forest, and the new comment is
    a node too if it is a top-level comment or a reply to a comment that
    was a node. *)
Theorem posting_keeps_visible (comments : list Comment) (c : Comment)
    (forest : list Node) :
  distinctIds (comments ++ [c]) →
  buildForest comments = Some forest →
  ∃ forest',
    buildForest (comments ++ [c]) = Some forest' ∧
    (∀ x, x ∈ flatten forest → x ∈ flatten forest') ∧
    (Comment.parentId c = PNull ∨
     (∃ c', c' ∈ flatten forest ∧ Comment.parentId c = PId (Comment.id c')) →
     c ∈ flatten forest').
Proof.
  intros Hids' Hrun.
  assert (distinctIds comments) as Hids.
  { unfold distinctIds in *. rewrite fmap_app in Hids'.
    by apply NoDup_app in Hids' as [? _]. }
  destruct (CommentTree_returns (comments ++ [c])
              (S (length (comments ++ [c]))) PAbsent [] Hids')
    as [forest' Hrun']; [constructor|simpl; lia|].
  exists forest'. split; [done|].
  destruct (flatten_rooted _ _ _ Hids Hrun) as [_ Hiff].
  destruct (flatten_rooted _ _ _ Hids' Hrun') as [_ Hiff'].
  assert (c ∈ comments ++ [c]) as Hc.
  { apply elem_of_app. right. by apply list_elem_of_singleton. }
  split.
  - intros x Hx. apply Hiff'. apply Hiff in Hx as [n Hn].
    exists n. by apply level_mono.
  - intros [Hp|(c' & Hc' & Hp)]; apply Hiff'.
    + exists 0%nat. by constructor.
    + apply Hiff in Hc' as [n Hn]. exists (S n).
      econstructor; [by apply level_mono|done..].
Qed.

Lemma posting_keeps_visible_witness :
  let c := Sample.comment "n1" (PId "b") 400 in
  distinctIds (Sample.thread ++ [c]) ∧
  buildForest Sample.thread =
    Some [mkNode Sample.c []; mkNode Sample.a [mkNode Sample.b []]] ∧
  ∃ forest',
    buildForest (Sample.thread ++ [c]) = Some forest' ∧
    c ∈ flatten forest'.
Proof.
  intros c.
  assert (distinctIds (Sample.thread ++ [c])) as Hids
    by (unfold distinctIds; compute_done).
  assert (buildForest Sample.thread =
    Some [mkNode Sample.c []; mkNode Sample.a [mkNode Sample.b []]]) as Hrun
    by (vm_compute; reflexivity).
  split; [exact Hids|]. split; [exact Hrun|].
  destruct (posting_keeps_visible _ c _ Hids Hrun) as (forest' & Hrun' & _ & Hc).
  exists forest'. split; [exact Hrun'|]. apply Hc. right.
  exists Sample.b. split; [|done]. vm_compute. do 2 right. left.
Defined.

Section Rewriting.

Context (f : Comment → Comment).
Context (f_id : ∀ c, Comment.id (f c) = Comment.id c).
Context (f_parentId : ∀ c, Comment.parentId (f c) = Comment.parentId c).
Context (f_createdAt : ∀ c, Comment.createdAt (f c) = Comment.createdAt c).

Lemma insertSorted_fmap x l :
  insertSorted byCreatedAt (f x) (f <$> l) = f <$> insertSorted byCreatedAt x l.
Proof.
  induction l as [|y l IH]; [done|]. rewrite fmap_cons. cbn [insertSorted].
  assert (byCreatedAt (f x) (f y) = byCreatedAt x y) as Heq.
  { unfold byCreatedAt. by rewrite (f_createdAt x), (f_createdAt y). }
  rewrite Heq. destruct (decide (byCreatedAt x y ≤ 0)); [done|].
  by rewrite fmap_cons, IH.
Qed.

Lemma sort_fmap l : sort byCreatedAt (f <$> l) = f <$> sort byCreatedAt l.
Proof.
  induction l as [|x l IH]; [done|]. rewrite fmap_cons. cbn [sort].
  by rewrite IH, insertSorted_fmap.
Qed.

Lemma childComments_fmap comments p :
  childComments (f <$> comments) p = f <$> childComments comments p.
Proof.
  unfold childComments. rewrite <- sort_fmap. f_equal.
  induction comments as [|c comments IH]; [done|].
  rewrite fmap_cons, !filter_cons, f_parentId.
  destruct (decide (Comment.parentId c = p)); by rewrite IH.
Qed.

Lemma mapM_fmap_node (g : Comment → option (list Node)) l :
  mapM (λ c, mkNode (f c) <$> (fmap (mapNode f) <$> g c)) l =
  fmap (mapNode f) <$> mapM (λ c, mkNode c <$> g c) l.
Proof.
  induction l as [|c l IH]; [done|]. simpl. rewrite IH.
  destruct (g c) as [rs|]; [|done]. simpl.
  by destruct (mapM (λ c0, mkNode c0 <$> g c0) l).
Qed.

Lemma mapM_fmap_list {A B C} (h : A → B) (g : B → option C) (l : list A) :
  mapM g (h <$> l) = mapM (g ∘ h) l.
Proof.
  induction l as [|x l IH]; [done|].
  rewrite fmap_cons. cbn [mapM]. by rewrite IH.
Qed.

(** Rewriting the comments without touching [id], [parentId] and
    [createdAt] rewrites the nodes and nothing else. *)
Lemma CommentTree_fmap fuel (comments : list Comment) p :
  CommentTree fuel (f <$> comments) p =
  fmap (M:=list) (mapNode f) <$> CommentTree fuel comments p.
Proof.
  revert p. induction fuel as [|fuel IH]; intros p; [done|].
  rewrite !CommentTree_S, childComments_fmap, mapM_fmap_list.
  rewrite <- mapM_fmap_node. apply mapM_ext. intros c. simpl.
  by rewrite f_id, IH.
Qed.

End Rewriting.

(** X10. A vote changes no shape: the forest of the comments after
    [toggleCommentVote]'s rewrite of them is the forest of the comments
    before it, with the vote applied to the nodes of the given comment id.
    In particular the call returns for the ones exactly when it returns
    for the others, with the same fuel. *)
Theorem vote_keeps_forest (fuel : nat) (comments : list Comment)
    (parentId : ParentRef) (commentId userId : string) (voteType : VoteType) :
  CommentTree fuel (voteInComments commentId userId voteType comments) parentId =
  fmap (M:=list)
    (mapNode (λ comment,
                if decide (Comment.id comment = commentId)
                then toggleVote comment userId voteType
                else comment))
    <$> CommentTree fuel comments parentId.
Proof.
  unfold voteInComments. apply CommentTree_fmap; intros c;
    destruct (decide (Comment.id c = commentId)); try done;
    apply (toggleVote_sameButVotes c userId voteType).
Qed.

Section OrderOfTheCollection.

Lemma filter_none {A} (P : A → Prop) `{∀ x, Decision (P x)} (l : list A) :
  (∀ y, y ∈ l → ¬ P y) → filter P l = [].
Proof.
  induction l as [|x l IH]; intros Hno; [done|].
  rewrite filter_cons_False by (apply Hno; left).
  apply IH. intros y Hy. apply Hno. by right.
Qed.

Lemma filter_createdAt_single (l : list Comment) t :
  NoDup (Comment.createdAt <$> l) →
  (length (filter (λ c, Comment.createdAt c = t) l) ≤ 1)%nat.
Proof.
  induction l as [|x l IH]; intros Hnd; [simpl; lia|].
  rewrite fmap_cons in Hnd. apply NoDup_cons in Hnd as [Hx Hnd].
  rewrite filter_cons. destruct (decide (Comment.createdAt x = t)) as [<-|Hne].
  - assert (filter (λ c, Comment.createdAt c = Comment.createdAt x) l = [])
      as ->; [|simpl; lia].
    apply filter_none. intros y Hy Heq.
    apply Hx. rewrite <- Heq. by apply list_elem_of_fmap_2.
  - by apply IH.
Qed.

Lemma Permutation_short {A} (l1 l2 : list A) :
  l1 ≡ₚ l2 → (length l1 ≤ 1)%nat → l1 = l2.
Proof.
  intros Hperm Hlen. destruct l1 as [|x [|y l1]]; simpl in Hlen; [| |lia].
  - by apply Permutation_nil_l.
  - by apply Permutation_singleton_l.
Qed.

Lemma childComments_Permutation_invariant comments comments' p :
  comments ≡ₚ comments' →
  NoDup (Comment.createdAt <$>
           filter (λ c, Comment.parentId c = p) comments) →
  childComments comments' p = childComments comments p.
Proof.
  intros Hperm Hnd. apply sort_unique; [apply childComments_sorted|].
  intros t. rewrite childComments_stable. symmetry.
  apply Permutation_short; [by rewrite Hperm|].
  by apply filter_createdAt_single.
Qed.

End OrderOfTheCollection.

(** X11. The order of the stored array matters for ties only: when no
    two comments with one [parentId] have one [createdAt], [CommentTree]
    returns the same result, forest or none, for the collection in any
    other order. *)
Theorem forest_ignores_order (fuel : nat) (comments comments' : list Comment)
    (parentId : ParentRef) :
  comments ≡ₚ comments' →
  (∀ q, NoDup (Comment.createdAt <$>
                 filter (λ c, Comment.parentId c = q) comments)) →
  CommentTree fuel comments' parentId = CommentTree fuel comments parentId.
Proof.
  intros Hperm Hnd. revert parentId.
  induction fuel as [|fuel IH]; intros parentId; [done|].
  rewrite !CommentTree_S, (childComments_Permutation_invariant comments) by done.
  apply mapM_ext. intros c. by rewrite IH.
Qed.

Lemma forest_ignores_order_witness :
  let comments := [Sample.a; Sample.b; Sample.c] in
  let comments' := [Sample.c; Sample.b; Sample.a] in
  comments ≡ₚ comments' ∧
  (∀ q, NoDup (Comment.createdAt <$>
                 filter (λ c, Comment.parentId c = q) comments)) ∧
  CommentTree 4 comments' PAbsent = CommentTree 4 comments PAbsent.
Proof.
  intros comments comments'.
  assert (comments ≡ₚ comments') as Hperm.
  { unfold comments, comments'.
    rewrite (Permutation_swap Sample.b Sample.a [Sample.c]).
    rewrite (Permutation_swap Sample.c Sample.a []).
    apply Permutation_swap. }
  assert (∀ q, NoDup (Comment.createdAt <$>
                 filter (λ c, Comment.parentId c = q) comments)) as Hnd.
  { intros q. apply (sublist_NoDup _ (Comment.createdAt <$> comments)).
    - compute_done.
    - apply fmap_sublist, sublist_filter. }
  split; [exact Hperm|]. split; [exact Hnd|].
  exact (forest_ignores_order 4 comments comments' PAbsent Hperm Hnd).
Defined.

(** * The story view beyond the comment tree *)

Section KeyedSort.

Context {A : Type} (key : A → Z) (cmp : A → A → Z).
Context (cmp_key : ∀ a b, cmp a b = key a - key b).

Lemma insertSorted_keyed_sorted x l :
  StronglySorted (λ a b, key a ≤ key b) l →
  StronglySorted (λ a b, key a ≤ key b) (insertSorted cmp x l).
Proof.
  induction 1 as [|y l Hl IH Hy]; simpl.
  - repeat constructor.
  - rewrite cmp_key. destruct (decide (key x - key y ≤ 0)) as [Hle|Hgt].
    + constructor; [by constructor|]. constructor; [lia|].
      eapply Forall_impl; [exact Hy|]. simpl. intros z Hz. lia.
    + constructor; [done|].
      rewrite insertSorted_Permutation. constructor; [lia|done].
Qed.

Lemma sort_keyed_sorted l :
  StronglySorted (λ a b, key a ≤ key b) (sort cmp l).
Proof.
  induction l as [|x l IH]; simpl; [constructor|].
  by apply insertSorted_keyed_sorted.
Qed.

Lemma insertSorted_keyed_stable t x l :
  filter (λ a, key a = t) (insertSorted cmp x l) =
  filter (λ a, key a = t) (x :: l).
Proof.
  induction l as [|y l IH]; simpl; [done|].
  rewrite cmp_key. destruct (decide (key x - key y ≤ 0)) as [Hle|Hgt]; [done|].
  rewrite (filter_cons _ y), IH, !(filter_cons _ x), (filter_cons _ y).
  destruct (decide (key x = t)), (decide (key y = t)); try done; lia.
Qed.

Lemma sort_keyed_stable t l :
  filter (λ a, key a = t) (sort cmp l) = filter (λ a, key a = t) l.
Proof.
  induction l as [|x l IH]; simpl; [done|].
  rewrite insertSorted_keyed_stable, !filter_cons, IH. done.
Qed.

End KeyedSort.

Section VisibleEpisodes.

Implicit Types (user : option User) (foundStory : Story) (e ep : Episode).

Lemma elem_of_userVisibleEpisodes user foundStory e :
  e ∈ userVisibleEpisodes user foundStory ↔
  e ∈ Story.episodes foundStory ∧ maySee user foundStory e = true.
Proof.
  unfold userVisibleEpisodes. rewrite elem_of_sort, list_elem_of_filter. tauto.
Qed.

Lemma maySee_stranger user foundStory e :
  (∀ u, user = Some u →
        User.role u ≠ ADMIN ∧ User.id u ≠ Story.authorId foundStory) →
  maySee user foundStory e = true → Episode.status e = published.
Proof.
  intros Hstranger. unfold maySee. destruct user as [u|].
  - destruct (Hstranger u eq_refl) as [Hrole Hid].
    rewrite (bool_decide_eq_false_2 _ Hrole), (bool_decide_eq_false_2 _ Hid).
    rewrite !orb_false_r. apply bool_decide_eq_true.
  - rewrite orb_false_r. apply bool_decide_eq_true.
Qed.

Lemma maySee_staff u foundStory e :
  User.role u = ADMIN ∨ User.id u = Story.authorId foundStory →
  maySee (Some u) foundStory e = true.
Proof.
  intros Hstaff. unfold maySee. apply orb_true_iff. right.
  apply orb_true_iff.
  destruct Hstaff; [left|right]; by apply bool_decide_eq_true.
Qed.

Lemma findEpisode_Some episodeId episodes ep :
  findEpisode episodeId episodes = Some ep →
  ep ∈ episodes ∧ Episode.id ep = episodeId.
Proof.
  unfold findEpisode. intros Hfind.
  apply fmap_Some in Hfind as ([i ep'] & Hfind & ->).
  apply list_find_Some in Hfind as (Hi & Hid & _). simpl.
  split; [by eapply list_elem_of_lookup_2|done].
Qed.

Lemma findEpisode_None episodeId episodes :
  findEpisode episodeId episodes = None ↔
  ∀ ep, ep ∈ episodes → Episode.id ep ≠ episodeId.
Proof.
  unfold findEpisode. rewrite fmap_None, list_find_None, Forall_forall. done.
Qed.

End VisibleEpisodes.

(** X12. Drafts stay closed: for a viewer who is signed out, or is
    neither an admin nor the author of the story, whatever episode the
    view opens is an episode of the story that is published and has the
    requested id; and a request for an id that only draft episodes have
    ends in the not-found error. *)
Theorem drafts_stay_closed (user : option User) (foundStory : Story) :
  (∀ u, user = Some u →
        User.role u ≠ ADMIN ∧ User.id u ≠ Story.authorId foundStory) →
  (∀ episodeId ep,
     selectEpisode user foundStory episodeId = Opened ep →
     ep ∈ Story.episodes foundStory ∧
     Episode.status ep = published ∧
     episodeId = Some (Episode.id ep)) ∧
  (∀ i,
     truthy i = true →
     (∀ ep, ep ∈ Story.episodes foundStory → Episode.id ep = i →
            Episode.status ep = draft) →
     selectEpisode user foundStory (Some i) = EpisodeNotFound).
Proof.
  intros Hstranger. split.
  - intros episodeId ep. unfold selectEpisode.
    destruct episodeId as [i|]; [|done].
    destruct (truthy i); [|done].
    destruct (findEpisode i _) as [foundEp|] eqn:Hfind; [|done].
    intros [= <-]. apply findEpisode_Some in Hfind as [Hin <-].
    apply elem_of_userVisibleEpisodes in Hin as [Hin Hsee].
    split_and!; [done| |done]. by eapply maySee_stranger.
  - intros i Hi Hdrafts. unfold selectEpisode. rewrite Hi.
    assert (findEpisode i (userVisibleEpisodes user foundStory) = None) as ->;
      [|done].
    apply findEpisode_None. intros ep Hin Hid.
    apply elem_of_userVisibleEpisodes in Hin as [Hin Hsee].
    pose proof (maySee_stranger _ _ _ Hstranger Hsee) as Hpub.
    rewrite (Hdrafts ep Hin Hid) in Hpub. discriminate.
Qed.

(** X13. The episodes a viewer is offered are the episodes of the story
    the viewer may see, each as often as the story has it, oldest first,
    episodes of one [createdAt] in the order of the story; an admin and
    the author of the story may see them all. *)
Theorem visible_episodes_in_order (user : option User) (foundStory : Story) :
  let visible := userVisibleEpisodes user foundStory in
  visible ≡ₚ
    filter (λ e, maySee user foundStory e = true) (Story.episodes foundStory) ∧
  StronglySorted (λ a b, Episode.createdAt a ≤ Episode.createdAt b) visible ∧
  (∀ t, filter (λ e, Episode.createdAt e = t) visible =
        filter (λ e, Episode.createdAt e = t)
          (filter (λ e, maySee user foundStory e = true)
             (Story.episodes foundStory))) ∧
  (∀ u, user = Some u →
        User.role u = ADMIN ∨ User.id u = Story.authorId foundStory →
        visible ≡ₚ Story.episodes foundStory).
Proof.
  intros visible. subst visible. unfold userVisibleEpisodes. split_and!.
  - apply sort_Permutation.
  - by apply (sort_keyed_sorted Episode.createdAt).
  - intros t. by apply (sort_keyed_stable Episode.createdAt).
  - intros u -> Hstaff. rewrite sort_Permutation.
    assert (filter (λ e, maySee (Some u) foundStory e = true)
              (Story.episodes foundStory) = Story.episodes foundStory) as ->;
      [|done].
    induction (Story.episodes foundStory) as [|e eps IH]; [done|].
    rewrite filter_cons_True by (by apply maySee_staff). by rewrite IH.
Qed.

Lemma drafts_stay_closed_witness :
  let reader :=
    User.mk "u1" "reader" "reader@example.org" READER None None in
  (∀ u, Some reader = Some u →
        User.role u ≠ ADMIN ∧ User.id u ≠ Story.authorId SampleStore.story1) ∧
  selectEpisode (Some reader) SampleStore.story1 (Some "e1")
    = Opened SampleStore.episode1 ∧
  Episode.status SampleStore.episode1 = published.
Proof.
  intros reader.
  assert (∀ u, Some reader = Some u →
        User.role u ≠ ADMIN ∧ User.id u ≠ Story.authorId SampleStore.story1)
    as Hstranger.
  { intros u [= <-]. split; discriminate. }
  assert (selectEpisode (Some reader) SampleStore.story1 (Some "e1")
            = Opened SampleStore.episode1) as Hopen
    by (vm_compute; reflexivity).
  split; [exact Hstranger|]. split; [exact Hopen|].
  exact (proj1 (proj2 (proj1 (drafts_stay_closed _ _ Hstranger) _ _ Hopen))).
Defined.

Section ChapterNavigation.

Implicit Types (l visibleEpisodes : list Episode) (e active : Episode)
  (i : nat).

Lemma findIndex_lookup l i e :
  NoDup (Episode.id <$> l) → l !! i = Some e →
  findIndex (Episode.id e) l = Z.of_nat i.
Proof.
  intros Hnd Hi. unfold findIndex.
  assert (list_find (λ e0, Episode.id e0 = Episode.id e) l = Some (i, e)) as ->;
    [|done].
  apply list_find_Some. split_and!; [done..|].
  intros j y Hj Hlt Heq.
  assert (j = i); [|lia].
  apply (NoDup_lookup (Episode.id <$> l) j i (Episode.id e)); [done| |].
  - by rewrite list_lookup_fmap, Hj, <- Heq.
  - by rewrite list_lookup_fmap, Hi.
Qed.

Lemma findIndex_absent l episodeId :
  (∀ e, e ∈ l → Episode.id e ≠ episodeId) → findIndex episodeId l = -1.
Proof.
  intros Hno. unfold findIndex.
  assert (list_find (λ e0, Episode.id e0 = episodeId) l = None) as ->; [|done].
  apply list_find_None, Forall_forall. done.
Qed.

Lemma at_index_nat {A} (arr : list A) i : at_index arr (Z.of_nat i) = arr !! i.
Proof.
  unfold at_index. rewrite decide_True by lia. by rewrite Nat2Z.id.
Qed.

(** The neighbours in the list are the neighbours in the view. *)
Lemma getChapterNav_at (story : Story) l i active :
  NoDup (Episode.id <$> l) → l !! i = Some active →
  getChapterNav (Some story) (Some active) l =
    (match i with O => None | S j => l !! j end, l !! S i).
Proof.
  intros Hnd Hi. unfold getChapterNav.
  rewrite (findIndex_lookup l i active Hnd Hi). f_equal.
  - destruct i as [|j].
    + by rewrite decide_False by lia.
    + rewrite decide_True by lia.
      replace (Z.of_nat (S j) - 1) with (Z.of_nat j) by lia.
      apply at_index_nat.
  - destruct (decide (Z.of_nat i < Z.of_nat (length l) - 1)) as [Hlt|Hge].
    + replace (Z.of_nat i + 1) with (Z.of_nat (S i)) by lia.
      apply at_index_nat.
    + symmetry. apply lookup_ge_None. lia.
Qed.

Lemma chapterNumber_at l i active :
  NoDup (Episode.id <$> l) → l !! i = Some active →
  chapterNumber active l = Z.of_nat i + 1.
Proof.
  intros Hnd Hi. unfold chapterNumber.
  rewrite (findIndex_lookup l i active Hnd Hi).
  by rewrite decide_True by lia.
Qed.

End ChapterNavigation.

(** X14. With distinct episode ids, for the active episode at place [i]
    of the visible episodes (counting from 0) [getChapterNav] gives the
    episode at place [i - 1] as previous, none for the first, and the
    episode at place [i + 1] as next, none for the last; the chapter number
    shown is [i + 1]. *)
Theorem chapter_nav_neighbours (story : Story) (visibleEpisodes : list Episode)
    (i : nat) (activeEpisode : Episode) :
  NoDup (Episode.id <$> visibleEpisodes) →
  visibleEpisodes !! i = Some activeEpisode →
  getChapterNav (Some story) (Some activeEpisode) visibleEpisodes =
    (match i with O => None | S j => visibleEpisodes !! j end,
     visibleEpisodes !! S i) ∧
  chapterNumber activeEpisode visibleEpisodes = Z.of_nat i + 1.
Proof.
  intros Hnd Hi. split.
  - by apply getChapterNav_at.
  - by apply chapterNumber_at.
Qed.

(** X15. Next and previous undo each other: with distinct episode ids,
    if the view of an episode of the list offers [e] as next chapter, the
    view of [e] offers that episode as previous chapter, and the other way
    round. *)
Theorem chapter_nav_round_trip (story : Story) (visibleEpisodes : list Episode)
    (activeEpisode e : Episode) :
  NoDup (Episode.id <$> visibleEpisodes) →
  activeEpisode ∈ visibleEpisodes →
  (snd (getChapterNav (Some story) (Some activeEpisode) visibleEpisodes) = Some e →
   fst (getChapterNav (Some story) (Some e) visibleEpisodes) = Some activeEpisode) ∧
  (fst (getChapterNav (Some story) (Some activeEpisode) visibleEpisodes) = Some e →
   snd (getChapterNav (Some story) (Some e) visibleEpisodes) = Some activeEpisode).
Proof.
  intros Hnd Hin. apply list_elem_of_lookup in Hin as [i Hi].
  rewrite (getChapterNav_at story _ _ _ Hnd Hi). cbn [fst snd]. split.
  - intros He. by rewrite (getChapterNav_at story _ _ _ Hnd He).
  - destruct i as [|j]; [done|]. intros He.
    by rewrite (getChapterNav_at story _ _ _ Hnd He).
Qed.

(** X16. An active episode that is not among the visible ones (no visible
    episode has its id) is shown as chapter 0, with no previous chapter and
    with the first visible episode, if there is one, as next chapter. With
    no story or no active episode there is no previous and no next. *)
Theorem chapter_nav_outside (story : Story) (visibleEpisodes : list Episode)
    (activeEpisode : Episode) :
  (∀ e, e ∈ visibleEpisodes → Episode.id e ≠ Episode.id activeEpisode) →
  getChapterNav (Some story) (Some activeEpisode) visibleEpisodes =
    (None, head visibleEpisodes) ∧
  chapterNumber activeEpisode visibleEpisodes = 0 ∧
  getChapterNav None (Some activeEpisode) visibleEpisodes = (None, None) ∧
  getChapterNav (Some story) None visibleEpisodes = (None, None).
Proof.
  intros Hno. unfold getChapterNav, chapterNumber.
  rewrite (findIndex_absent _ _ Hno). split_and!; [|done..].
  rewrite decide_False by lia. f_equal.
  destruct visibleEpisodes as [|e0 l].
  - by rewrite decide_False by (simpl; lia).
  - by rewrite decide_True by (simpl; lia).
Qed.

Lemma chapter_nav_neighbours_witness :
  NoDup (Episode.id <$> SampleView.chapters) ∧
  SampleView.chapters !! 1%nat = Some SampleView.ch2 ∧
  getChapterNav (Some SampleStore.story1) (Some SampleView.ch2)
    SampleView.chapters = (Some SampleView.ch1, Some SampleView.ch3) ∧
  chapterNumber SampleView.ch2 SampleView.chapters = 2.
Proof.
  assert (NoDup (Episode.id <$> SampleView.chapters)) as Hnd by compute_done.
  assert (SampleView.chapters !! 1%nat = Some SampleView.ch2) as Hi by done.
  split; [exact Hnd|]. split; [exact Hi|].
  exact (chapter_nav_neighbours SampleStore.story1 _ _ _ Hnd Hi).
Defined.

Lemma chapter_nav_round_trip_witness :
  NoDup (Episode.id <$> SampleView.chapters) ∧
  SampleView.ch2 ∈ SampleView.chapters ∧
  (snd (getChapterNav (Some SampleStore.story1) (Some SampleView.ch2)
          SampleView.chapters) = Some SampleView.ch3 →
   fst (getChapterNav (Some SampleStore.story1) (Some SampleView.ch3)
          SampleView.chapters) = Some SampleView.ch2).
Proof.
  assert (NoDup (Episode.id <$> SampleView.chapters)) as Hnd by compute_done.
  assert (SampleView.ch2 ∈ SampleView.chapters) as Hin by (right; left).
  split; [exact Hnd|]. split; [exact Hin|].
  exact (proj1 (chapter_nav_round_trip SampleStore.story1 _ _
                  SampleView.ch3 Hnd Hin)).
Defined.

Lemma chapter_nav_outside_witness :
  (∀ e, e ∈ SampleView.chapters →
        Episode.id e ≠ Episode.id SampleStore.episode1) ∧
  getChapterNav (Some SampleStore.story1) (Some SampleStore.episode1)
    SampleView.chapters = (None, Some SampleView.ch1).
Proof.
  assert (∀ e, e ∈ SampleView.chapters →
        Episode.id e ≠ Episode.id SampleStore.episode1) as Hno.
  { intros e He. unfold SampleView.chapters in He.
    repeat (apply elem_of_cons in He as [->|He]; [discriminate|]).
    by apply elem_of_nil in He. }
  split; [exact Hno|].
  exact (proj1 (chapter_nav_outside SampleStore.story1 _ _ Hno)).
Defined.

(** * The handlers of the story view *)






(** X18. What the comment form stores: every comment that is in the
    collection after [handleComment] and was not in it before has the
    reading of the id generator as [id] and of the clock as [createdAt],
    the id, name and role of the signed-in user, the id of the active
    episode, empty vote lists, a text that is not blank, and a [parentId]
    that is [null], with the text of the comment box, or a non-empty id,
    with the text of the reply box. Without a user, a story or an active
    episode, or with a blank text, the collection is left as it is. *)
Theorem handleComment_posts (blank : string → bool) (env : Env) (db : Stories)
    (user : option User) (story : option Story)
    (activeEpisode : option Episode) (replyText commentText : string)
    (parentId : ParentRef) :
  let db' :=
    handleComment blank env db user story activeEpisode
      replyText commentText parentId in
  (user = None ∨ story = None ∨ activeEpisode = None ∨
   blank (if truthyRef (orNull parentId) then replyText else commentText) = true →
   db' = db) ∧
  (∀ c, stored db' c →
     stored db c ∨
     ∃ u ep,
       user = Some u ∧ activeEpisode = Some ep ∧
       Comment.id c = autoId env ∧
       Comment.createdAt c = now env ∧
       Comment.userId c = User.id u ∧
       Comment.username c = User.username u ∧
       Comment.userRole c = User.role u ∧
       Comment.episodeId c = Episode.id ep ∧
       Comment.likes c = [] ∧ Comment.dislikes c = [] ∧
       blank (Comment.content c) = false ∧
       ((Comment.parentId c = PNull ∧ Comment.content c = commentText) ∨
        (∃ i, Comment.parentId c = PId i ∧ truthy i = true ∧
              parentId = PId i ∧ Comment.content c = replyText))).
Proof.
  intros db'. subst db'. unfold handleComment. split.
  - intros [->| [->| [->|Hblank]]].
    + done.
    + by destruct user.
    + by destruct user, story.
    + destruct user, story, activeEpisode; try done. by rewrite Hblank.
  - intros c Hc.
    destruct user as [u|], story as [st|], activeEpisode as [ep|];
      try (by left).
    destruct (blank _) eqn:Hblank; [by left|].
    rewrite addComment_updateEpisodes in Hc.
    apply stored_updateEpisodes in Hc as [Hc|(story0 & ep0 & Hstory & Hep & Hc)];
      [by left|].
    unfold appendComment in Hep.
    apply list_elem_of_fmap in Hep as (ep1 & -> & Hep1).
    destruct (decide (Episode.id ep1 = Episode.id ep)) as [Heq|Hne];
      [|left; by exists (Story.id st), story0, ep1].
    simpl in Hc. apply elem_of_app in Hc as [Hc|Hc];
      [left; by exists (Story.id st), story0, ep1|].
    apply list_elem_of_singleton in Hc as ->. right.
    exists u, ep. simpl. split_and!; try done.
    destruct (truthyRef (orNull parentId)) eqn:Htruthy.
    + right. destruct parentId as [| |i]; try done.
      exists i. by split_and!.
    + by left.
Qed.

Lemma handleComment_posts_witness :
  let db' :=
    handleComment (λ _, false) SampleStore.env1 SampleStore.db1
      (Some SampleView.reader) (Some SampleStore.story1)
      (Some SampleStore.episode1) "reply" "hello" PAbsent in
  let c :=
    newComment SampleStore.env1
      (CommentData.mk "e1" "u1" "reader" READER "hello" PNull) in
  stored db' c ∧
  (stored SampleStore.db1 c ∨
   (Comment.parentId c = PNull ∧ Comment.content c = "hello")).
Proof.
  intros db' c.
  assert (stored db' c) as Hc.
  { exists "s1", (Story.withEpisodes SampleStore.story1
                   [Episode.withComments SampleStore.episode1
                      (Sample.thread ++ [c])]),
      (Episode.withComments SampleStore.episode1 (Sample.thread ++ [c])).
    split_and!.
    - unfold db', handleComment, addComment, SampleStore.db1. simpl.
      rewrite lookup_singleton_eq. apply lookup_insert_eq.
    - left.
    - simpl. do 4 right. left. }
  split; [exact Hc|].
  destruct (proj2 (handleComment_posts (λ _, false) SampleStore.env1
                     SampleStore.db1 (Some SampleView.reader)
                     (Some SampleStore.story1) (Some SampleStore.episode1)
                     "reply" "hello" PAbsent) c Hc)
    as [Hold|(u & ep & _ & _ & _ & _ & _ & _ & _ & _ & _ & _ & _ & Hparent)].
  - by left.
  - right. destruct Hparent as [Hp|(i & Hp & _)]; [exact Hp|discriminate].
Defined.

(** * Announcements *)

Lemma filter_all {A} (P : A → Prop) `{∀ x, Decision (P x)} (l : list A) :
  (∀ y, y ∈ l → P y) → filter P l = l.
Proof.
  induction l as [|x l IH]; intros Hall; [done|].
  rewrite filter_cons_True by (apply Hall; left).
  f_equal. apply IH. intros y Hy. apply Hall. by right.
Qed.

Lemma getAnnouncements_delete (doc : option AnnouncementsDoc)
    (announcementId : string) :
  getAnnouncements (deleteAnnouncement doc announcementId) =
  filter (λ ann, Announcement.id ann ≠ announcementId) (getAnnouncements doc).
Proof. destruct doc as [[[l|] s]|]; done. Qed.

(** X19. [deleteAnnouncement] takes the announcements with the given id,
    and no other, out of what [getAnnouncements] returns, keeping the order
    of the rest; a second call for the same id changes nothing more, and a
    document that is missing stays missing. *)
Theorem deleteAnnouncement_removes (doc : option AnnouncementsDoc)
    (announcementId : string) :
  getAnnouncements (deleteAnnouncement doc announcementId) =
    filter (λ ann, Announcement.id ann ≠ announcementId) (getAnnouncements doc) ∧
  (∀ ann, ann ∈ getAnnouncements (deleteAnnouncement doc announcementId) →
          Announcement.id ann ≠ announcementId) ∧
  deleteAnnouncement (deleteAnnouncement doc announcementId) announcementId =
    deleteAnnouncement doc announcementId ∧
  (doc = None → deleteAnnouncement doc announcementId = None).
Proof.
  split_and!.
  - apply getAnnouncements_delete.
  - intros ann. rewrite getAnnouncements_delete, list_elem_of_filter. tauto.
  - destruct doc as [[l s]|]; [|done]. simpl. do 3 f_equal.
    apply filter_all. intros ann Hann.
    by apply list_elem_of_filter in Hann as [? _].
  - by intros ->.
Qed.

(** X20. An announcement posted is returned last, after the ones
    returned before, and when its id is new, deleting it by its id gives
    back the list as it was before it was posted. *)
Theorem addAnnouncement_then_delete (env : Env) (doc : option AnnouncementsDoc)
    (message : string) :
  (∀ ann, ann ∈ getAnnouncements doc → Announcement.id ann ≠ autoId env) →
  getAnnouncements (addAnnouncement env doc message) =
    getAnnouncements doc ++
    [{| Announcement.id := autoId env; Announcement.message := message;
        Announcement.postedAt := now env |}] ∧
  getAnnouncements
    (deleteAnnouncement (addAnnouncement env doc message) (autoId env)) =
    getAnnouncements doc.
Proof.
  intros Hfresh.
  assert (getAnnouncements (addAnnouncement env doc message) =
    getAnnouncements doc ++
    [{| Announcement.id := autoId env; Announcement.message := message;
        Announcement.postedAt := now env |}]) as Hadd.
  { destruct doc as [[[l|] s]|]; try done. simpl.
    rewrite decide_False; [done|]. intros Hin.
    by apply (Hfresh _ Hin). }
  split; [done|].
  rewrite getAnnouncements_delete.
  rewrite Hadd, filter_app, filter_cons_False by (simpl; tauto).
  rewrite filter_nil, app_nil_r. by apply filter_all.
Qed.

Lemma addAnnouncement_then_delete_witness :
  let env := mkEnv "n7" 500 in
  let doc :=
    Some (AnnouncementsDoc.mk
            (Some [Announcement.mk "n1" "Welcome" 100]) None) in
  (∀ ann, ann ∈ getAnnouncements doc → Announcement.id ann ≠ autoId env) ∧
  getAnnouncements (addAnnouncement env doc "News") =
    [Announcement.mk "n1" "Welcome" 100; Announcement.mk "n7" "News" 500] ∧
  getAnnouncements (deleteAnnouncement (addAnnouncement env doc "News") "n7") =
    [Announcement.mk "n1" "Welcome" 100].
Proof.
  intros env doc.
  assert (∀ ann, ann ∈ getAnnouncements doc → Announcement.id ann ≠ autoId env)
    as Hfresh.
  { intros ann Hann. simpl in Hann.
    apply list_elem_of_singleton in Hann as ->. discriminate. }
  split; [exact Hfresh|].
  exact (addAnnouncement_then_delete env doc "News" Hfresh).
Defined.

(** X21. The rotation setting and the list do not disturb each other:
    [getAnnouncementSettings] returns what [saveAnnouncementSettings]
    saved last, and 15 seconds when nothing was saved; saving leaves the
    announcements as they are, and posting or deleting an announcement
    leaves the setting as it is. *)
Theorem announcement_settings_round_trip (env : Env)
    (doc : option AnnouncementsDoc) (s : AnnouncementSettings)
    (message announcementId : string) :
  getAnnouncementSettings (saveAnnouncementSettings doc s) = s ∧
  getAnnouncements (saveAnnouncementSettings doc s) = getAnnouncements doc ∧
  getAnnouncementSettings (addAnnouncement env doc message) =
    getAnnouncementSettings doc ∧
  getAnnouncementSettings (deleteAnnouncement doc announcementId) =
    getAnnouncementSettings doc ∧
  (doc = None → rotationInterval (getAnnouncementSettings doc) = 15).
Proof.
  split_and!; destruct doc as [[l st]|]; try done.
Qed.

(** * Editing an episode *)

Lemma updateEpisode_updateEpisodes env db storyId episodeId updates :
  updateEpisode env db storyId episodeId updates =
  updateEpisodes db storyId (editInEpisodes env episodeId updates).
Proof. done. Qed.

(** X22. An edit keeps what readers left: [updateEpisode] stores the same
    comments as before, in every story, and in the story it rewrites the
    episodes keep their number and order, the episodes with another id are
    as they were, and the episodes with the given id get the reading of
    the clock as [updatedAt] and, where given, the new title and content,
    and keep their [id], [storyId], [createdAt], [likes], [comments],
    [status] and [views]. *)
Theorem updateEpisode_edits (env : Env) (db : Stories)
    (storyId episodeId : string) (updates : EpisodeUpdates) :
  let db' := updateEpisode env db storyId episodeId updates in
  (∀ c, stored db' c ↔ stored db c) ∧
  (∀ other, other ≠ storyId → db' !! other = db !! other) ∧
  (∀ story, db !! storyId = Some story →
     ∃ story',
       db' !! storyId = Some story' ∧
       sameButEpisodes story story' ∧
       Forall2
         (λ ep ep',
            (Episode.id ep ≠ episodeId → ep' = ep) ∧
            (Episode.id ep = episodeId →
             Episode.updatedAt ep' = Some (now env) ∧
             Episode.title ep' = default (Episode.title ep) (newTitle updates) ∧
             Episode.content ep' =
               default (Episode.content ep) (newContent updates)) ∧
            Episode.id ep' = Episode.id ep ∧
            Episode.storyId ep' = Episode.storyId ep ∧
            Episode.createdAt ep' = Episode.createdAt ep ∧
            Episode.likes ep' = Episode.likes ep ∧
            Episode.comments ep' = Episode.comments ep ∧
            Episode.status ep' = Episode.status ep ∧
            Episode.views ep' = Episode.views ep)
         (Story.episodes story) (Story.episodes story')).
Proof.
  intros db'. subst db'.
  assert (∀ story,
    Forall2
      (λ ep ep',
         (Episode.id ep ≠ episodeId → ep' = ep) ∧
         (Episode.id ep = episodeId →
          Episode.updatedAt ep' = Some (now env) ∧
          Episode.title ep' = default (Episode.title ep) (newTitle updates) ∧
          Episode.content ep' =
            default (Episode.content ep) (newContent updates)) ∧
         Episode.id ep' = Episode.id ep ∧
         Episode.storyId ep' = Episode.storyId ep ∧
         Episode.createdAt ep' = Episode.createdAt ep ∧
         Episode.likes ep' = Episode.likes ep ∧
         Episode.comments ep' = Episode.comments ep ∧
         Episode.status ep' = Episode.status ep ∧
         Episode.views ep' = Episode.views ep)
      (Story.episodes story)
      (editInEpisodes env episodeId updates (Story.episodes story))) as Hframe.
  { intros story. unfold editInEpisodes.
    apply Forall2_fmap_r, Forall_Forall2_diag, Forall_forall.
    intros ep _. unfold compose.
    destruct (decide (Episode.id ep = episodeId)); split_and!; done. }
  split_and!.
  - intros c. unfold updateEpisode.
    destruct (db !! storyId) as [story|] eqn:Hstory; [|done].
    split.
    + intros (sid & story' & ep' & Hlookup & Hep' & Hc).
      destruct (decide (sid = storyId)) as [->|Hne].
      * rewrite lookup_insert_eq in Hlookup. injection Hlookup as <-.
        simpl in Hep'. apply list_elem_of_lookup in Hep' as [i Hi].
        destruct (Forall2_lookup_r _ _ _ _ _ (Hframe story) Hi)
          as (ep & Hep & Hrel).
        exists storyId, story, ep. split_and!; [done| |].
        -- by eapply list_elem_of_lookup_2.
        -- destruct Hrel as (_ & _ & _ & _ & _ & _ & <- & _). done.
      * rewrite lookup_insert_ne in Hlookup by done. by exists sid, story', ep'.
    + intros (sid & story0 & ep & Hlookup & Hep & Hc).
      destruct (decide (sid = storyId)) as [->|Hne].
      * assert (story0 = story) as -> by congruence.
        apply list_elem_of_lookup in Hep as [i Hi].
        destruct (Forall2_lookup_l _ _ _ _ _ (Hframe story) Hi)
          as (ep' & Hep' & Hrel).
        exists storyId, (Story.withEpisodes story
                  (editInEpisodes env episodeId updates (Story.episodes story))),
          ep'.
        split_and!; [apply lookup_insert_eq| |].
        -- by eapply list_elem_of_lookup_2.
        -- destruct Hrel as (_ & _ & _ & _ & _ & _ & -> & _). done.
      * exists sid, story0, ep. by rewrite lookup_insert_ne.
  - intros other Hne. unfold updateEpisode.
    destruct (db !! storyId); [|done]. by rewrite lookup_insert_ne.
  - intros story Hstory. unfold updateEpisode. rewrite Hstory.
    eexists. split; [apply lookup_insert_eq|]. split; [repeat split|].
    apply Hframe.
Qed.

(** * Latest episodes *)

Lemma StronglySorted_weaken {A} (R R' : A → A → Prop) (l : list A) :
  (∀ a b, R a b → R' a b) → StronglySorted R l → StronglySorted R' l.
Proof.
  intros Himpl. induction 1 as [|x l _ IH Hx]; constructor; [done|].
  eapply Forall_impl; [exact Hx|]. apply Himpl.
Qed.

Lemma sort_byNewest_sorted (l : list LatestEpisode) :
  StronglySorted newerFirst (sort byNewest l).
Proof.
  eapply StronglySorted_weaken;
    [|apply (sort_keyed_sorted (λ a, - Episode.createdAt (episode a)) byNewest)].
  - unfold newerFirst. intros a b Hab. simpl in Hab. lia.
  - intros a b. unfold byNewest. lia.
Qed.

(** X23. What [getLatestEpisodes] makes of the stories it is given: at
    most ten entries, newest first, each a published episode of one of
    the stories under that story's author name, cover and title; and a
    published episode of the stories that is left out is no newer than
    any of the ten that are returned. *)
Theorem latestEpisodes_newest (stories : list Story) :
  let latest := latestEpisodesOf stories in
  (length latest ≤ 10)%nat ∧
  StronglySorted newerFirst latest ∧
  (∀ x, x ∈ latest →
     Episode.status (episode x) = published ∧
     ∃ story,
       story ∈ stories ∧ episode x ∈ Story.episodes story ∧
       authorName x = Story.authorName story ∧
       coverImage x = Story.coverImage story ∧
       storyTitle x = Story.title story) ∧
  (∀ story ep,
     story ∈ stories → ep ∈ Story.episodes story →
     Episode.status ep = published →
     (∃ x, x ∈ latest ∧ episode x = ep) ∨
     (length latest = 10%nat ∧
      ∀ x, x ∈ latest →
           Episode.createdAt ep ≤ Episode.createdAt (episode x))).
Proof.
  intros latest. subst latest. unfold latestEpisodesOf.
  set (allEpisodes := stories ≫= _).
  pose proof (sort_byNewest_sorted allEpisodes) as Hsorted.
  rewrite <- (take_drop 10 (sort byNewest allEpisodes)) in Hsorted.
  assert (∀ x, x ∈ allEpisodes ↔
            ∃ story, story ∈ stories ∧ episode x ∈ Story.episodes story ∧
                     Episode.status (episode x) = published ∧
                     authorName x = Story.authorName story ∧
                     coverImage x = Story.coverImage story ∧
                     storyTitle x = Story.title story) as Hall.
  { intros x. unfold allEpisodes. rewrite list_elem_of_bind. split.
    - intros (story & Hx & Hstory). exists story.
      apply list_elem_of_fmap in Hx as (ep & -> & Hep).
      apply list_elem_of_filter in Hep as [Hpub Hep]. by split_and!.
    - intros (story & Hstory & Hep & Hpub & Ha & Hc & Ht). exists story.
      split; [|done]. apply list_elem_of_fmap. exists (episode x).
      split; [|by apply list_elem_of_filter].
      destruct x; simpl in *. by subst. }
  split_and!.
  - rewrite length_take. lia.
  - by eapply StronglySorted_app_1_l.
  - intros x Hx. apply subseteq_take, elem_of_sort, Hall in Hx
      as (story & ? & ? & ? & ? & ? & ?).
    split; [done|]. by exists story.
  - intros story ep Hstory Hep Hpub.
    set (x := {| episode := ep; authorName := Story.authorName story;
                 coverImage := Story.coverImage story;
                 storyTitle := Story.title story |}).
    assert (x ∈ sort byNewest allEpisodes) as Hx.
    { apply elem_of_sort, Hall. by exists story. }
    rewrite <- (take_drop 10 (sort byNewest allEpisodes)) in Hx.
    apply elem_of_app in Hx as [Hx|Hx]; [left; by exists x|].
    right. split.
    + apply length_take_le.
      destruct (decide (10 ≤ length (sort byNewest allEpisodes))%nat);
        [done|].
      rewrite drop_ge in Hx by lia. by apply elem_of_nil in Hx.
    + intros y Hy.
      apply (StronglySorted_app_1_elem_of _ _ _ y x Hsorted Hy Hx).
Qed.

(** * How deep the recursion goes *)

Section Depth.

Context (comments : list Comment).
Implicit Types (forest : list Node) (n : Node) (p : ParentRef) (fuel : nat).

Lemma heightOf_unfold n : heightOf n = S (height (replies n)).
Proof. by destruct n. Qed.

Lemma height_cons n forest :
  height (n :: forest) = (heightOf n `max` height forest)%nat.
Proof. done. Qed.

Lemma heightOf_le_height n forest :
  n ∈ forest → (heightOf n ≤ height forest)%nat.
Proof.
  intros Hn. unfold height. apply max_list_elem_of_le.
  by apply list_elem_of_fmap_2.
Qed.

Lemma allNodes_height_below h forest n :
  (height forest ≤ h)%nat → n ∈ allNodes forest →
  (heightOf n ≤ height forest)%nat.
Proof.
  revert forest. induction h as [|h IH]; intros forest Hh Hn.
  - apply elem_of_allNodes in Hn as (n0 & Hn0 & _).
    pose proof (heightOf_le_height n0 forest Hn0) as Hle.
    rewrite heightOf_unfold in Hle. lia.
  - apply elem_of_allNodes in Hn as (n0 & Hn0 & [->|Hn]).
    + by apply heightOf_le_height.
    + pose proof (heightOf_le_height n0 forest Hn0) as Hle.
      rewrite heightOf_unfold in Hle.
      assert (heightOf n ≤ height (replies n0))%nat; [|lia].
      apply IH; [lia|done].
Qed.

Lemma allNodes_height n forest :
  n ∈ allNodes forest → (heightOf n ≤ height forest)%nat.
Proof. by apply (allNodes_height_below (height forest)). Qed.

(** Two runs that return, return the same forest. *)
Lemma CommentTree_deterministic fuel1 fuel2 p forest1 forest2 :
  CommentTree fuel1 comments p = Some forest1 →
  CommentTree fuel2 comments p = Some forest2 →
  forest1 = forest2.
Proof.
  intros H1 H2.
  apply (CommentTree_fuel_mono _ (fuel1 `max` fuel2)) in H1; [|lia].
  apply (CommentTree_fuel_mono _ (fuel1 `max` fuel2)) in H2; [|lia].
  congruence.
Qed.

(** The replies of every node are what the call for its id returns. *)
Lemma CommentTree_nodes_built fuel p forest n :
  CommentTree fuel comments p = Some forest →
  n ∈ allNodes forest →
  payload n ∈ comments ∧
  ∃ fuel', CommentTree fuel' comments (PId (Comment.id (payload n)))
             = Some (replies n).
Proof.
  revert p forest. induction fuel as [|fuel IH]; intros p forest Hrun Hn;
    [done|].
  rewrite CommentTree_S in Hrun. apply mapM_Some in Hrun.
  apply elem_of_allNodes in Hn as (n0 & Hn0 & Hn).
  apply list_elem_of_lookup in Hn0 as [i Hi].
  destruct (Forall2_lookup_r _ _ _ _ _ Hrun Hi) as (c & Hc & Hbuilt).
  apply fmap_Some in Hbuilt as (sub & Hsub & ->).
  destruct Hn as [->|Hn].
  - split; [|by exists fuel]. simpl.
    apply list_elem_of_lookup_2, elem_of_childComments in Hc. tauto.
  - by apply (IH _ _ Hsub).
Qed.

(** No comment is a node among its own replies. *)
Lemma payload_not_below fuel p forest n :
  CommentTree fuel comments p = Some forest →
  n ∈ allNodes forest →
  payload n ∉ flatten (replies n).
Proof.
  intros Hrun Hn Hin.
  destruct (CommentTree_nodes_built _ _ _ _ Hrun Hn) as [_ [fuel1 Hrun1]].
  apply list_elem_of_fmap in Hin as (n' & Heq & Hn').
  destruct (CommentTree_nodes_built _ _ _ _ Hrun1 Hn') as [_ [fuel2 Hrun2]].
  rewrite <- Heq in Hrun2.
  pose proof (CommentTree_deterministic _ _ _ _ _ Hrun1 Hrun2) as Hsame.
  pose proof (allNodes_height _ _ Hn') as Hle.
  rewrite heightOf_unfold, <- Hsame in Hle. lia.
Qed.

(** The fuel a forest needs is its height and one call more. *)
Lemma CommentTree_height fuel p forest :
  CommentTree fuel comments p = Some forest →
  CommentTree (S (height forest)) comments p = Some forest.
Proof.
  revert p forest. induction fuel as [|fuel IH]; intros p forest Hrun; [done|].
  rewrite CommentTree_S in Hrun |- *. apply mapM_Some in Hrun.
  apply mapM_Some.
  assert (∀ n, n ∈ forest → (heightOf n ≤ height forest)%nat) as Hle
    by (intros n; apply heightOf_le_height).
  revert Hle. generalize (height forest) as h.
  induction Hrun as [|c n cs ns Hc _ IHrun]; intros h Hle; constructor.
  - apply fmap_Some in Hc as (sub & Hsub & ->).
    apply fmap_Some. exists sub. split; [|done].
    apply IH in Hsub.
    eapply CommentTree_fuel_mono; [exact Hsub|].
    specialize (Hle (mkNode c sub) ltac:(left)).
    rewrite heightOf_unfold in Hle. simpl in Hle. lia.
  - apply IHrun. intros n' Hn'. apply Hle. by right.
Qed.

(** Every nested call is for another comment of the collection. *)
Lemma height_bound fuel p forest (above : list Comment) :
  CommentTree fuel comments p = Some forest →
  NoDup above → (∀ c, c ∈ above → c ∈ comments) →
  (∀ c, c ∈ above → c ∉ flatten forest) →
  (height forest + length above ≤ length comments)%nat.
Proof.
  revert p forest above.
  induction fuel as [|fuel IH]; intros p forest above Hrun Hnd Hin Hnot;
    [done|].
  assert (length above ≤ length comments)%nat as Hbase.
  { by apply submseteq_length, NoDup_submseteq. }
  assert (∀ n, n ∈ forest →
            (heightOf n + length above ≤ length comments)%nat) as Hall.
  { intros n Hn.
    assert (n ∈ allNodes forest) as Hnode.
    { apply elem_of_allNodes. exists n. by split; [|left]. }
    destruct (CommentTree_nodes_built _ _ _ _ Hrun Hnode) as [Hc _].
    pose proof (payload_not_below _ _ _ _ Hrun Hnode) as Hself.
    rewrite CommentTree_S in Hrun. apply mapM_Some in Hrun.
    apply list_elem_of_lookup in Hn as [i Hi].
    destruct (Forall2_lookup_r _ _ _ _ _ Hrun Hi) as (c & _ & Hbuilt).
    apply fmap_Some in Hbuilt as (sub & Hsub & ->).
    cbn [payload replies] in *.
    rewrite heightOf_unfold. cbn [replies].
    assert (flatten sub ⊆ flatten forest) as Hincl.
    { intros x Hx. apply list_elem_of_fmap in Hx as (m & -> & Hm).
      apply list_elem_of_fmap_2, elem_of_allNodes.
      exists (mkNode c sub). split; [by eapply list_elem_of_lookup_2|by right]. }
    specialize (IH _ sub (c :: above) Hsub). simpl in IH.
    assert (height sub + S (length above) ≤ length comments)%nat; [|lia].
    apply IH.
    - apply NoDup_cons. split; [|done]. intros Hc'.
      apply (Hnot c Hc'). apply list_elem_of_fmap.
      exists (mkNode c sub). split; [done|].
      apply elem_of_allNodes. exists (mkNode c sub).
      split; [by eapply list_elem_of_lookup_2|by left].
    - intros x Hx. apply elem_of_cons in Hx as [->|Hx]; [done|by apply Hin].
    - intros x Hx. apply elem_of_cons in Hx as [->|Hx]; [done|].
      intros Hx'. by apply (Hnot x Hx), Hincl. }
  clear Hrun Hnot. induction forest as [|n forest IHf]; [simpl; lia|].
  rewrite height_cons.
  pose proof (Hall n ltac:(left)).
  assert (height forest + length above ≤ length comments)%nat; [|lia].
  apply IHf. intros n' Hn'. apply Hall. by right.
Qed.

Lemma CommentTree_fuel_enough fuel p forest :
  CommentTree fuel comments p = Some forest →
  CommentTree (S (length comments)) comments p = Some forest.
Proof.
  intros Hrun.
  pose proof (height_bound _ _ _ [] Hrun NoDup_nil_2) as Hbound.
  eapply CommentTree_fuel_mono; [by eapply CommentTree_height|].
  simpl in Hbound. specialize (Hbound ltac:(by intros ? ?%elem_of_nil)
                                      ltac:(by intros ? ?%elem_of_nil)).
  lia.
Qed.

End Depth.

(** X24. The recursion ends soon or never: a call of [CommentTree] that
    returns a forest needs no more nested calls than the collection has
    comments and one, whatever the ids and references are, so
    [buildForest] returns that forest; and [buildForest] returns nothing
    only when no number of nested calls is enough. *)
Theorem recursion_ends_soon_or_never (comments : list Comment) :
  (∀ fuel forest,
     CommentTree fuel comments PAbsent = Some forest →
     buildForest comments = Some forest ∧
     (height forest ≤ length comments)%nat) ∧
  (buildForest comments = None ↔
   ∀ fuel, CommentTree fuel comments PAbsent = None).
Proof.
  split.
  - intros fuel forest Hrun. split.
    + by eapply CommentTree_fuel_enough.
    + pose proof (height_bound comments _ _ _ [] Hrun NoDup_nil_2
                    ltac:(by intros ? ?%elem_of_nil)
                    ltac:(by intros ? ?%elem_of_nil)) as Hbound.
      simpl in Hbound. lia.
  - split.
    + intros Hnone fuel.
      destruct (CommentTree fuel comments PAbsent) as [forest|] eqn:Hrun;
        [|done].
      apply CommentTree_fuel_enough in Hrun. unfold buildForest in Hnone.
      congruence.
    + intros Hnone. apply Hnone.
Qed.
